(** * UTRI-pro: the per-tract road-network pipeline and the TRVI index

    A shallow embedding of
      - [combine_ACS_and_OSM/dc_combine_analysis.py]  (clipping, component
        reduction, the four guarded metrics, [gini_coefficient]);
      - [combine_ACS_and_OSM/DC_TRVI_Spatial_Analysis.py]  (complete-case
        filtering, entropy weights, TRVI, the Moran's I loop).

    Numbers.  The scripts compute with [np.float64].  [gini_coefficient],
    the one numerical routine that the repository defines itself, is
    embedded twice: in binary64 arithmetic, operation by operation
    ([Float64]), and in exact rational arithmetic ([Gini]), which is what
    its formula means when no operation rounds.  Everything else is
    library code (scikit-learn, pandas, esda): there rounding is outside
    this embedding, values that the code obtains with [+ - * /] only are
    exact rationals ([Q]), values that need [np.log] or a square root are
    real numbers ([R]).  Operations that leave the numbers (a raised
    exception, a division by zero, a NaN) are written out as [None] or
    [Raises]. *)

From Stdlib Require Import String.
From Stdlib Require Import List ZArith QArith Qminmax Qabs Lia Bool.
From Stdlib Require Import Permutation Sorted Relations.
From Stdlib Require Import Reals Psatz.
From Stdlib Require Floats.
Import ListNotations.

(** ** [gini_coefficient]  (dc_combine_analysis.py, lines 107-114),
       in exact arithmetic *)

Module Gini.
Open Scope Q_scope.

Definition Qltb (a b : Q) : bool := negb (Qle_bool b a).

(** [np.sum] *)
Fixpoint sum (x : list Q) : Q :=
  match x with
  | [] => 0
  | v :: t => v + sum t
  end.

(** [np.amin] of a non-empty array, given as head and tail. *)
Fixpoint amin (x0 : Q) (xs : list Q) : Q :=
  match xs with
  | [] => x0
  | y :: ys => amin (if Qltb y x0 then y else x0) ys
  end.

(** [np.sort]: ascending. *)
Fixpoint insert (v : Q) (l : list Q) : list Q :=
  match l with
  | [] => [v]
  | h :: t => if Qle_bool v h then v :: l else h :: insert v t
  end.

Definition sort (x : list Q) : list Q := fold_right insert [] x.

(** [np.arange(a, a + len)] *)
Fixpoint arange (a : Z) (len : nat) : list Z :=
  match len with
  | O => []
  | S k => a :: arange (a + 1) k
  end.

(** [(2 * index - n - 1) * x], elementwise, for [index] starting at [i]. *)
Definition rank_weighted (i : Z) (n : Z) (x : list Q) : list Q :=
  map (fun iv => inject_Z (2 * fst iv - n - 1) * snd iv)
      (combine (arange i (length x)) x).

(** The function itself.  [None] is the [ValueError] that [np.amin] raises
    on an empty array. *)
Definition gini_coefficient (x : list Q) : option Q :=
  match x with
  | [] => None
  | x0 :: xs =>
      let mn := amin x0 xs in
      let x := if Qltb mn 0 then map (fun v => v - mn) x else x in
      if Qeq_bool (sum x) 0 then Some 0
      else
        let x := sort x in
        let n := Z.of_nat (length x) in
        Some (sum (rank_weighted 1 n x) / (inject_Z n * sum x))
  end.

End Gini.

(** ** [gini_coefficient]  (dc_combine_analysis.py, lines 107-114),
       in binary64 arithmetic

    The array is a [np.float64] array (line 108); every operation below is
    the IEEE 754 binary64 operation that numpy performs, in numpy's
    order. *)

Module Float64.
Import Floats.
Local Open Scope float_scope.

Definition isnan (a : float) : bool := negb (a =? a).

(** [np.amin] of a non-empty array, given as head and tail; a NaN is
    passed on. *)
Fixpoint amin (x0 : float) (xs : list float) : float :=
  match xs with
  | [] => x0
  | y :: ys =>
      amin (if isnan x0 then x0 else if isnan y then y
            else if y <? x0 then y else x0) ys
  end.

(** [np.sum] of a contiguous array is numpy's pairwise summation: fewer
    than 8 numbers are added from left to right; up to 128 numbers are
    added into 8 running sums, which are then added as a tree, followed
    by what is left over; a longer array is cut in two (the first part a
    multiple of 8). *)
Definition sequential (acc : float) (l : list float) : float :=
  fold_left PrimFloat.add l acc.

(** [r[j] += a[i + j]] for the running sums [r]. *)
Fixpoint add_to (r l : list float) : list float :=
  match r, l with
  | a :: r', b :: l' => (a + b) :: add_to r' l'
  | _, _ => r
  end.

(** While 8 numbers are left they go into the running sums; the result
    is the running sums and the numbers left over. *)
Fixpoint unrolled (fuel : nat) (r l : list float) : list float * list float :=
  match fuel with
  | O => (r, l)
  | S k =>
      if (8 <=? length l)%nat
      then unrolled k (add_to r (firstn 8 l)) (skipn 8 l)
      else (r, l)
  end.

Definition tree8 (r : list float) : float :=
  match r with
  | [r0; r1; r2; r3; r4; r5; r6; r7] =>
      ((r0 + r1) + (r2 + r3)) + ((r4 + r5) + (r6 + r7))
  | _ => 0
  end.

Definition block_sum (l : list float) : float :=
  if (length l <? 8)%nat then sequential 0 l
  else
    let (r, rest) := unrolled (length l) (firstn 8 l) (skipn 8 l) in
    sequential (tree8 r) rest.

Fixpoint pairwise_sum (fuel : nat) (l : list float) : float :=
  match fuel with
  | O => block_sum l
  | S k =>
      if (length l <=? 128)%nat then block_sum l
      else
        let n2 := (length l / 2)%nat in
        let n2 := (n2 - n2 mod 8)%nat in
        pairwise_sum k (firstn n2 l) + pairwise_sum k (skipn n2 l)
  end.

(** The reduction starts from the identity of the addition. *)
Definition sum (x : list float) : float := 0 + pairwise_sum (length x) x.

(** [np.sort]: ascending, NaN last. *)
Fixpoint insert (v : float) (l : list float) : list float :=
  match l with
  | [] => [v]
  | h :: t => if isnan h || (v <=? h) then v :: l else h :: insert v t
  end.

Definition sort (x : list float) : list float := fold_right insert [] x.

(** An integer of the array [2 * index - n - 1], converted to binary64
    for the product with [x]. *)
Definition of_int (k : Z) : float :=
  match k with
  | Z0 => 0
  | Zpos _ => PrimFloat.of_uint63 (Uint63.of_Z k)
  | Zneg _ => - PrimFloat.of_uint63 (Uint63.of_Z (- k))
  end.

(** [(2 * index - n - 1) * x], elementwise, [index = 1, 2, ..., n]. *)
Definition rank_weighted (n : Z) (x : list float) : list float :=
  map (fun iv => of_int (2 * fst iv - n - 1) * snd iv)
      (combine (Gini.arange 1 (length x)) x).

(** The function itself.  [None] is the [ValueError] that [np.amin] raises
    on an empty array. *)
Definition gini_coefficient (x : list float) : option float :=
  match x with
  | [] => None
  | x0 :: xs =>
      let mn := amin x0 xs in
      let x := if mn <? 0 then map (fun v => v - mn) x else x in
      if sum x =? 0 then Some 0
      else
        let x := sort x in
        let n := Z.of_nat (length x) in
        Some (sum (rank_weighted n x) / (of_int n * sum x))
  end.


End Float64.

(** ** Geometry: [GeoSeries.within] for points against a polygon

    [nodes_gdf.within(tract_polygon)] is shapely's [within]: a point is
    within a polygon when it lies in the polygon's interior; a point of the
    boundary is not within.  The location of a point is decided here by the
    usual two tests on the exterior ring: on which segments the point lies,
    and how many segments a ray to the right crosses. *)

Module Geometry.
Open Scope Q_scope.

Definition Point : Type := Q * Q.

(** The exterior ring; the segment from the last vertex back to the first
    is implied. *)
Definition Polygon : Type := list Point.

Definition Qltb (a b : Q) : bool := negb (Qle_bool b a).

Definition cross (a b p : Point) : Q :=
  (fst b - fst a) * (snd p - snd a) - (snd b - snd a) * (fst p - fst a).

Definition between (a b w : Q) : bool :=
  (Qle_bool a w && Qle_bool w b) || (Qle_bool b w && Qle_bool w a).

Definition on_segment (p : Point) (s : Point * Point) : bool :=
  let (a, b) := s in
  Qeq_bool (cross a b p) 0
  && between (fst a) (fst b) (fst p)
  && between (snd a) (snd b) (snd p).

Definition segments (poly : Polygon) : list (Point * Point) :=
  match poly with
  | [] => []
  | p0 :: rest => combine poly (rest ++ [p0])
  end.

(** Does the horizontal ray from [p] to the right cross the segment? *)
Definition crosses_ray (p : Point) (s : Point * Point) : bool :=
  let (a, b) := s in
  negb (Bool.eqb (Qltb (snd p) (snd a)) (Qltb (snd p) (snd b)))
  && Qltb (fst p)
          (fst a + (snd p - snd a) * (fst b - fst a) / (snd b - snd a)).

Inductive Location : Type := Interior | Boundary | Exterior.

Definition locate (p : Point) (poly : Polygon) : Location :=
  if existsb (on_segment p) (segments poly) then Boundary
  else if Nat.odd (length (filter (crosses_ray p) (segments poly)))
       then Interior
       else Exterior.

Definition within (p : Point) (poly : Polygon) : bool :=
  match locate p poly with
  | Interior => true
  | _ => false
  end.

(** The point [p] lies on the boundary of the polygon: on one of its
    segments, at parameter [t] between the two ends. *)
Definition on_boundary (p : Point) (poly : Polygon) : Prop :=
  exists a b t,
    In (a, b) (segments poly)
    /\ 0 <= t /\ t <= 1
    /\ fst p == fst a + t * (fst b - fst a)
    /\ snd p == snd a + t * (snd b - snd a).

End Geometry.

(** ** The street graph and the per-tract loop
       (dc_combine_analysis.py, lines 116-169) *)

Module Network.
Import Geometry.

(** A row of [nodes_gdf]: the node id (the index) and its point. *)
Record Node : Type := { osmid : Z; xy : Point }.

(** An edge of the [MultiDiGraph]: [u -> v] with its [length] attribute.
    Parallel edges are repeated entries. *)
Record Edge : Type := { e_u : Z; e_v : Z; e_length : Q }.

(** The list order of [nodes] is the iteration order of the graph. *)
Record MultiDiGraph : Type := { nodes : list Node; edges : list Edge }.

Definition node_ids (G : MultiDiGraph) : list Z := map osmid (nodes G).

Definition mem (w : Z) (l : list Z) : bool := existsb (Z.eqb w) l.

Definition number_of_nodes (G : MultiDiGraph) : nat := length (nodes G).
Definition number_of_edges (G : MultiDiGraph) : nat := length (edges G).

(** [G.subgraph(nbunch).copy()]: the nodes of [G] that are in [nbunch] and
    the edges of [G] with both ends among them.  The nodes are listed here
    in the order of [G].  networkx lists them in that order only when
    [nbunch] holds at least half of the nodes of [G]; for a smaller
    selection the copy follows the iteration order of the selecting set
    (see [reordered]). *)
Definition subgraph (G : MultiDiGraph) (nbunch : list Z) : MultiDiGraph :=
  {| nodes := filter (fun n => mem (osmid n) nbunch) (nodes G);
     edges := filter (fun e => mem (e_u e) nbunch && mem (e_v e) nbunch)
                     (edges G) |}.

(** Successors and predecessors of a node ([G._succ[v]], [G._pred[v]]). *)
Definition succ (G : MultiDiGraph) (a : Z) : list Z :=
  map e_v (filter (fun e => Z.eqb (e_u e) a) (edges G)).

Definition pred (G : MultiDiGraph) (a : Z) : list Z :=
  map e_u (filter (fun e => Z.eqb (e_v e) a) (edges G)).

Definition neighbors (G : MultiDiGraph) (a : Z) : list Z := succ G a ++ pred G a.

(** [_plain_bfs]: breadth-first search that follows edges in both
    directions, one level per round.  A round collects the neighbours of
    the current level that were not seen before.  There are at most as
    many rounds as nodes, which is the fuel [plain_bfs] gives. *)
Fixpoint bfs_rounds (fuel : nat) (G : MultiDiGraph)
                    (seen thislevel : list Z) : list Z :=
  match fuel with
  | O => seen
  | S fuel' =>
      match thislevel with
      | [] => seen
      | _ =>
          let nextlevel :=
            nodup Z.eq_dec
              (filter (fun w => negb (mem w seen))
                      (flat_map (neighbors G) thislevel)) in
          bfs_rounds fuel' G (seen ++ nextlevel) nextlevel
      end
  end.

Definition plain_bfs (G : MultiDiGraph) (source : Z) : list Z :=
  bfs_rounds (number_of_nodes G) G [source] [source].

(** [nx.weakly_connected_components]: walk the nodes in iteration order;
    each node not seen so far starts a new component. *)
Fixpoint wcc_from (G : MultiDiGraph) (todo seen : list Z) : list (list Z) :=
  match todo with
  | [] => []
  | v :: rest =>
      if mem v seen then wcc_from G rest seen
      else let c := plain_bfs G v in c :: wcc_from G rest (c ++ seen)
  end.

Definition weakly_connected_components (G : MultiDiGraph) : list (list Z) :=
  wcc_from G (node_ids G) [].

(** Python's [max(iterable, key=len)]: the first element of greatest
    length; [None] is the [ValueError] on an empty iterable. *)
Fixpoint max_len_from (best : list Z) (cs : list (list Z)) : list Z :=
  match cs with
  | [] => best
  | c :: rest =>
      if (length best <? length c)%nat then max_len_from c rest
      else max_len_from best rest
  end.

Definition max_key_len (cs : list (list Z)) : option (list Z) :=
  match cs with
  | [] => None
  | c :: rest => Some (max_len_from c rest)
  end.

(** A census tract: a row of [tracts_with_income_gdf]. *)
Record Tract : Type := {
  GEOID : string;
  geometry : Polygon;
  Median_Household_Income : option Q
}.

(** Line 123. *)
Definition nodes_within_tract (G : MultiDiGraph) (tract : Tract) : list Node :=
  filter (fun n => within (xy n) (geometry tract)) (nodes G).

(** Line 136. *)
Definition largest_cc_nodes (sub : MultiDiGraph) : option (list Z) :=
  max_key_len (weakly_connected_components sub).

(** Lines 130-137: the induced subgraph, reduced to its largest weakly
    connected component, for a copy that lists its nodes in the order of
    [G] ([keep_largest] is the same step on a copy in any order). *)
Definition reduced_subgraph (G : MultiDiGraph) (tract : Tract) : MultiDiGraph :=
  let sub := subgraph G (map osmid (nodes_within_tract G tract)) in
  if (0 <? number_of_nodes sub)%nat then
    match largest_cc_nodes sub with
    | Some c => subgraph sub c
    | None => sub
    end
  else sub.

(** A copy of a graph whose nodes are listed in another order.  The
    subgraph view of networkx iterates the nodes of [G] when the selection
    holds at least half of them and the selecting set otherwise, and
    [.copy()] inserts the nodes as the view iterates them: the copy made
    on line 130 is the induced subgraph with its nodes in some order. *)
Definition reordered (sub : MultiDiGraph) (order : list Node) : MultiDiGraph :=
  {| nodes := order; edges := edges sub |}.

(** Lines 135-137, on the copy made on line 130. *)
Definition keep_largest (sub : MultiDiGraph) : MultiDiGraph :=
  if (0 <? number_of_nodes sub)%nat then
    match largest_cc_nodes sub with
    | Some c => subgraph sub c
    | None => sub
    end
  else sub.

(** What a [try] body does: it returns a value or raises. *)
Inductive attempt (A : Type) : Type :=
| Returns (a : A)
| Raises.
Arguments Returns {A} a.
Arguments Raises {A}.

(** [try: m = body  except Exception: m = None] *)
Definition guarded {A : Type} (body : attempt A) : option A :=
  match body with
  | Returns a => Some a
  | Raises => None
  end.

(** The result of [gini_coefficient] inside the fourth [try]. *)
Definition gini_attempt (values : attempt (list Q)) : attempt Q :=
  match values with
  | Raises => Raises
  | Returns l =>
      match Gini.gini_coefficient l with
      | Some g => Returns g
      | None => Raises
      end
  end.

(** [nx.Graph(subgraph)]: direction and parallel edges are dropped. *)
Definition undirected_key (e : Edge) : Z * Z :=
  (Z.min (e_u e) (e_v e), Z.max (e_u e) (e_v e)).

Definition pair_eq_dec (a b : Z * Z) : {a = b} + {a <> b}.
Proof. decide equality; apply Z.eq_dec. Defined.

Record Graph : Type := { g_nodes : list Z; g_edges : list (Z * Z) }.

Definition nx_Graph (G : MultiDiGraph) : Graph :=
  {| g_nodes := node_ids G;
     g_edges := nodup pair_eq_dec (map undirected_key (edges G)) |}.

(** The four metric fields of a row of [results]. *)
Record Metrics : Type := {
  global_permeability : option Q;
  avg_clustering_coeff : option Q;
  degree_assortativity : option Q;
  gini_edge_betweenness : option Q
}.

(** A row of [results]. *)
Inductive Row : Type :=
| ErrorRow (geoid : string) (error : string)
| MetricsRow (geoid : string) (metrics : Metrics).

Section PerTract.

(** The four networkx routines the loop calls. *)
Variable global_efficiency : Graph -> attempt Q.
Variable average_clustering : Graph -> attempt Q.
Variable degree_assortativity_coefficient : MultiDiGraph -> attempt Q.
Variable edge_betweenness_centrality : MultiDiGraph -> attempt (list Q).

(** Lines 144-167. *)
Definition compute_metrics (sub : MultiDiGraph) : Metrics :=
  {| global_permeability := guarded (global_efficiency (nx_Graph sub));
     avg_clustering_coeff := guarded (average_clustering (nx_Graph sub));
     degree_assortativity := guarded (degree_assortativity_coefficient sub);
     gini_edge_betweenness :=
       guarded (gini_attempt (edge_betweenness_centrality sub)) |}.

(** The body of the loop over the tracts, lines 118-169. *)
Definition process_tract (G : MultiDiGraph) (tract : Tract) : Row :=
  if (length (nodes_within_tract G tract) <? 3)%nat then
    ErrorRow (GEOID tract) "Not enough nodes"
  else
    let sub := reduced_subgraph G tract in
    if (number_of_nodes sub <? 3)%nat || (number_of_edges sub =? 0)%nat then
      ErrorRow (GEOID tract) "Subgraph not viable"
    else
      MetricsRow (GEOID tract) (compute_metrics sub).

End PerTract.

(** The status of a tract, read off the [error] column of its row. *)
Inductive Status : Type := ok | insufficient_nodes | not_viable.

Definition status (r : Row) : Status :=
  match r with
  | MetricsRow _ _ => ok
  | ErrorRow _ e =>
      if String.eqb e "Not enough nodes" then insufficient_nodes
      else not_viable
  end.

(** The metric columns of a row after [pd.DataFrame(results)]: an error
    row has no value in any of them. *)
Definition no_metrics : Metrics :=
  {| global_permeability := None; avg_clustering_coeff := None;
     degree_assortativity := None; gini_edge_betweenness := None |}.

Definition metric_columns (r : Row) : Metrics :=
  match r with
  | ErrorRow _ _ => no_metrics
  | MetricsRow _ m => m
  end.

Definition error_column (r : Row) : option string :=
  match r with
  | ErrorRow _ e => Some e
  | MetricsRow _ _ => None
  end.

End Network.

(** ** Entropy weights, TRVI and Moran's I
       (DC_TRVI_Spatial_Analysis.py) *)

Module Index.
Open Scope R_scope.

(** A row of [dc_utri_analysis.csv]; an empty cell is [None]. *)
Record Row : Type := {
  GEOID : string;
  Median_Household_Income : option R;
  global_permeability : option R;
  avg_clustering_coeff : option R;
  degree_assortativity : option R;
  gini_edge_betweenness : option R
}.

(** A row all of whose five cells hold a number. *)
Record Complete : Type := {
  geoid : string;
  MHI : R;
  permeability : R;
  clustering : R;
  assortativity : R;
  gini : R
}.

Definition complete_row (r : Row) : option Complete :=
  match Median_Household_Income r, global_permeability r,
        avg_clustering_coeff r, degree_assortativity r,
        gini_edge_betweenness r with
  | Some i, Some a, Some b, Some c, Some d =>
      Some {| geoid := GEOID r; MHI := i; permeability := a;
              clustering := b; assortativity := c; gini := d |}
  | _, _, _, _, _ => None
  end.

(** Line 20: [df.dropna(subset=[...the five columns...])]. *)
Fixpoint df_clean (df : list Row) : list Complete :=
  match df with
  | [] => []
  | r :: rest =>
      match complete_row r with
      | Some c => c :: df_clean rest
      | None => df_clean rest
      end
  end.

Fixpoint sum (x : list R) : R :=
  match x with
  | [] => 0
  | v :: t => v + sum t
  end.

Definition col_min (x0 : R) (xs : list R) : R := fold_right Rmin x0 xs.
Definition col_max (x0 : R) (xs : list R) : R := fold_right Rmax x0 xs.

(** [MinMaxScaler().fit_transform] on one column.  A column whose range
    is 0 is scaled by 1 (scikit-learn's handling of a zero range). *)
Definition minmax (col : list R) : list R :=
  match col with
  | [] => []
  | x0 :: xs =>
      let mn := col_min x0 xs in
      let range := col_max x0 xs - mn in
      let scale := if Req_dec_T range 0 then 1 else range in
      map (fun x => (x - mn) / scale) col
  end.

Definition flip (col : list R) : list R := map (fun x => 1 - x) col.

(** Lines 55-65: the four aligned, normalised columns of [df_processed]. *)
Record Processed : Type := {
  p_permeability : list R;
  p_clustering : list R;
  p_assortativity : list R;
  p_gini : list R
}.

Definition df_processed (rows : list Complete) : Processed :=
  {| p_permeability := minmax (map permeability rows);
     p_clustering := flip (minmax (map clustering rows));
     p_assortativity := flip (minmax (map assortativity rows));
     p_gini := flip (minmax (map gini rows)) |}.

(** A float division whose result is not a number when the divisor is 0. *)
Definition div (a b : R) : option R :=
  if Req_dec_T b 0 then None else Some (a / b).

(** [p * np.log(p).replace([inf, -inf], 0)] *)
Definition p_log_p (p : R) : R :=
  p * (if Req_dec_T p 0 then 0 else ln p).

(** [((col / col.sum()) * np.log(col / col.sum()).replace(...)).sum()].
    When the column sums to 0 every quotient is NaN, and [Series.sum]
    skips NaN: the sum is 0. *)
Definition entropy_sum (col : list R) : R :=
  let s := sum col in
  if Req_dec_T s 0 then 0
  else sum (map (fun v => p_log_p (v / s)) col).

(** [d = 1 - entropy] for one column, with [k = 1 / np.log(m)]. *)
Definition diversification (k : R) (col : list R) : R :=
  1 - (- k * entropy_sum col).

Record Weights : Type := {
  w_permeability : R;
  w_clustering : R;
  w_assortativity : R;
  w_gini : R
}.

(** Lines 68-73.  [None]: the weights are not numbers ([k] is infinite
    for a single row, or [d.sum()] is 0), or the scaler raised on an
    empty table. *)
Definition weights_ewm (rows : list Complete) : option Weights :=
  match rows with
  | [] => None
  | _ =>
      let P := df_processed rows in
      match div 1 (ln (INR (length rows))) with
      | None => None
      | Some k =>
          let d1 := diversification k (p_permeability P) in
          let d2 := diversification k (p_clustering P) in
          let d3 := diversification k (p_assortativity P) in
          let d4 := diversification k (p_gini P) in
          let dsum := d1 + d2 + d3 + d4 in
          match div d1 dsum, div d2 dsum, div d3 dsum, div d4 dsum with
          | Some w1, Some w2, Some w3, Some w4 =>
              Some {| w_permeability := w1; w_clustering := w2;
                      w_assortativity := w3; w_gini := w4 |}
          | _, _, _, _ => None
          end
      end
  end.

(** Lines 82-87: the weighted sum, row by row. *)
Fixpoint weighted_rows (w : Weights) (a b c d : list R) : list R :=
  match a, b, c, d with
  | x1 :: a', x2 :: b', x3 :: c', x4 :: d' =>
      (w_permeability w * x1 + w_clustering w * x2
       + w_assortativity w * x3 + w_gini w * x4)
      :: weighted_rows w a' b' c' d'
  | _, _, _, _ => []
  end.

Definition UTRI_physical (rows : list Complete) : option (list R) :=
  match weights_ewm rows with
  | None => None
  | Some w =>
      let P := df_processed rows in
      Some (weighted_rows w (p_permeability P) (p_clustering P)
                          (p_assortativity P) (p_gini P))
  end.

(** [StandardScaler().fit_transform] on one column: population standard
    deviation, and a deviation of 0 is replaced by 1. *)
Definition mean (col : list R) : R := sum col / INR (length col).

Definition std (col : list R) : R :=
  sqrt (sum (map (fun x => (x - mean col) * (x - mean col)) col)
        / INR (length col)).

Definition zscore (col : list R) : list R :=
  let scale := if Req_dec_T (std col) 0 then 1 else std col in
  map (fun x => (x - mean col) / scale) col.

(** Lines 99-102: [TRVI = -MHI_Z + -UTRI_physical_Z], row by row. *)
Fixpoint combine_TRVI (mhi_z phys_z : list R) : list R :=
  match mhi_z, phys_z with
  | a :: mhi_z', b :: phys_z' => (- a + - b) :: combine_TRVI mhi_z' phys_z'
  | _, _ => []
  end.

Definition TRVI (income physical : list R) : list R :=
  combine_TRVI (zscore income) (zscore physical).

(** Line 105: [df_clean.join(df_scaled[['TRVI']])].  When the physical
    index is not a number, neither is any TRVI. *)
Definition df_final (df : list Row) : list (Complete * option R) :=
  let rows := df_clean df in
  match UTRI_physical rows with
  | Some physical =>
      List.combine rows (map Some (TRVI (map MHI rows) physical))
  | None => map (fun c => (c, None)) rows
  end.

(** Line 133: the inner merge of the tract shapes with [df_final]. *)
Definition gdf_analysis (gdf_tracts : list string) (df : list Row)
  : list (Complete * option R) :=
  flat_map
    (fun g => filter (fun ct => String.eqb (geoid (fst ct)) g) (df_final df))
    gdf_tracts.

(** Lines 20-105 as one run.  With no complete row [df_processed] is
    empty and the first [fit_transform] (line 59) raises [ValueError]:
    the script ends there and [df_final] is never assigned. *)
Definition run_df_final (df : list Row)
  : Network.attempt (list (Complete * option R)) :=
  match df_clean df with
  | [] => Network.Raises
  | _ :: _ => Network.Returns (df_final df)
  end.

(** The row has an empty cell in one of the five columns. *)
Definition has_null (r : Row) : Prop :=
  Median_Household_Income r = None
  \/ global_permeability r = None
  \/ avg_clustering_coeff r = None
  \/ degree_assortativity r = None
  \/ gini_edge_betweenness r = None.

Definition unit_interval (y : R) : Prop := 0 <= y /\ y <= 1.

(** How many entries of a column are positive. *)
Definition positives (col : list R) : R :=
  sum (map (fun v => if Rlt_dec 0 v then 1 else 0) col).

(** *** Moran's I *)

(** The six columns the loop at lines 140-145 goes through. *)
Inductive Indicator : Type :=
| I_Median_Household_Income
| I_global_permeability
| I_avg_clustering_coeff
| I_degree_assortativity
| I_gini_edge_betweenness
| I_TRVI.

Definition indicators : list Indicator :=
  [I_Median_Household_Income; I_global_permeability; I_avg_clustering_coeff;
   I_degree_assortativity; I_gini_edge_betweenness; I_TRVI].

(** A table with one value, or none, per region and indicator. *)
Definition Table : Type := list (Indicator -> option R).

Definition column (t : Table) (col : Indicator) : list (option R) :=
  map (fun region => region col) t.

Definition table_of (rows : list (Complete * option R)) : Table :=
  map (fun ct col =>
         match col with
         | I_Median_Household_Income => Some (MHI (fst ct))
         | I_global_permeability => Some (permeability (fst ct))
         | I_avg_clustering_coeff => Some (clustering (fst ct))
         | I_degree_assortativity => Some (assortativity (fst ct))
         | I_gini_edge_betweenness => Some (gini (fst ct))
         | I_TRVI => snd ct
         end) rows.

Definition isnull (v : option R) : bool :=
  match v with
  | None => true
  | Some _ => false
  end.

(** The values of a column without nulls. *)
Definition values (col : list (option R)) : list R :=
  flat_map (fun v => match v with Some x => [x] | None => [] end) col.

(** Queen contiguity, row-standardised: each neighbour of region [i] has
    weight [1 / (number of neighbours of i)]. *)
Definition row_standardized (n : nat) (queen : nat -> nat -> bool)
                            (i j : nat) : R :=
  if queen i j
  then 1 / INR (length (filter (queen i) (seq 0 n)))
  else 0.

Definition sum_over (n : nat) (f : nat -> R) : R := sum (map f (seq 0 n)).

(** [moran.I]: with [z = y - mean(y)],
    [I = n / S0 * (sum_i sum_j w_ij z_i z_j) / (sum_i z_i^2)].  [None]: a
    divisor is 0 and the quotient is not a number. *)
Definition Moran_I (y : list R) (w : nat -> nat -> R) : option R :=
  let n := length y in
  let z := fun i => nth i y 0 - mean y in
  let S0 := sum_over n (fun i => sum_over n (fun j => w i j)) in
  let num := sum_over n (fun i => sum_over n (fun j => w i j * z i * z j)) in
  let z2ss := sum_over n (fun i => z i * z i) in
  match div (INR n) S0 with
  | None => None
  | Some a => div (a * num) z2ss
  end.

(** [Moran(y, w)].  Before the statistic itself the constructor computes
    its moments, among them the expected value [-1.0 / (n - 1)]: with a
    single region this is a Python division by zero, which raises
    [ZeroDivisionError].  (The simulated p-value, which is drawn at
    random, is left out.) *)
Definition Moran (y : list R) (w : nat -> nat -> R)
  : Network.attempt (option R) :=
  if (length y =? 1)%nat then Network.Raises
  else Network.Returns (Moran_I y w).

(** Lines 139-145.  A column with a null is skipped; for the others the
    entry holds [moran.I].  The loop has no [try]: an exception of
    [Moran] ends the script. *)
Fixpoint moran_loop (t : Table) (w : nat -> nat -> R) (cols : list Indicator)
  : Network.attempt (list (Indicator * option R)) :=
  match cols with
  | [] => Network.Returns []
  | col :: rest =>
      if existsb isnull (column t col) then moran_loop t w rest
      else
        match Moran (values (column t col)) w with
        | Network.Raises => Network.Raises
        | Network.Returns i =>
            match moran_loop t w rest with
            | Network.Raises => Network.Raises
            | Network.Returns res => Network.Returns ((col, i) :: res)
            end
        end
  end.

(** Lines 135-145.  [Queen.from_dataframe] starts by reading the first
    shape of the table; on a table without rows there is none and the
    constructor raises. *)
Definition moran_results (t : Table) (queen : nat -> nat -> bool)
  : Network.attempt (list (Indicator * option R)) :=
  match t with
  | [] => Network.Raises
  | _ :: _ => moran_loop t (row_standardized (length t) queen) indicators
  end.

Definition Indicator_eq_dec (a b : Indicator) : {a = b} + {a <> b}.
Proof. decide equality. Defined.

(** [moran_results.get(col)] *)
Fixpoint lookup (col : Indicator) (res : list (Indicator * option R))
  : option (option R) :=
  match res with
  | [] => None
  | (c, v) :: rest => if Indicator_eq_dec col c then Some v else lookup col rest
  end.

(** The script from line 20 to line 145: [gdf_tracts] holds the GEOIDs of
    the shapefile, [df] the rows of [dc_utri_analysis.csv], and [queen]
    tells which rows of [gdf_analysis] touch. *)
Definition script_moran_results (gdf_tracts : list string) (df : list Row)
                                (queen : nat -> nat -> bool)
  : Network.attempt (list (Indicator * option R)) :=
  match run_df_final df with
  | Network.Raises => Network.Raises
  | Network.Returns _ =>
      moran_results (table_of (gdf_analysis gdf_tracts df)) queen
  end.

End Index.

(** ** A small street graph: two triangles inside a square tract, one node
       on the tract's boundary and one outside *)

Module Examples.
Import Geometry Network.
Open Scope Q_scope.

Definition square : Polygon := [(0, 0); (10, 0); (10, 10); (0, 10)].

Definition node (i : Z) (x y : Q) : Node := {| osmid := i; xy := (x, y) |}.
Definition street (a b : Z) : Edge := {| e_u := a; e_v := b; e_length := 1 |}.

Definition on_the_edge : Node := node 8 0 3.

Definition two_triangles : MultiDiGraph :=
  {| nodes := [node 1 1 1; node 2 2 1; node 3 1 2;
               node 4 5 5; node 5 6 5; node 6 5 6;
               node 7 20 20; on_the_edge];
     edges := [street 1 2; street 2 3; street 3 1;
               street 4 5; street 6 5; street 6 4; street 7 1] |}.

Definition square_tract : Tract :=
  {| GEOID := "11001000100"; geometry := square;
     Median_Household_Income := None |}.

(** A row without a clustering coefficient. *)
Definition gap_row : Index.Row :=
  {| Index.GEOID := "11001000300";
     Index.Median_Household_Income := Some 70000%R;
     Index.global_permeability := Some 1%R;
     Index.avg_clustering_coeff := None;
     Index.degree_assortativity := Some 0%R;
     Index.gini_edge_betweenness := Some 1%R |}.

(** Three rows of [dc_utri_analysis.csv]: the third, [gap_row], has a
    global permeability but no clustering coefficient. *)
Definition three_rows : list Index.Row :=
  [ {| Index.GEOID := "11001000100";
       Index.Median_Household_Income := Some 50000%R;
       Index.global_permeability := Some 1%R;
       Index.avg_clustering_coeff := Some 2%R;
       Index.degree_assortativity := Some 3%R;
       Index.gini_edge_betweenness := Some 4%R |};
    {| Index.GEOID := "11001000201";
       Index.Median_Household_Income := Some 90000%R;
       Index.global_permeability := Some 2%R;
       Index.avg_clustering_coeff := Some 2%R;
       Index.degree_assortativity := Some 1%R;
       Index.gini_edge_betweenness := Some 5%R |};
    gap_row ].

Definition three_tracts : list string :=
  ["11001000100"; "11001000201"; "11001000300"]%string.

(** Two complete rows of the analysis table. *)
Definition two_rows : list Index.Complete :=
  [ {| Index.geoid := "11001000100"; Index.MHI := 50000;
       Index.permeability := 1; Index.clustering := 2;
       Index.assortativity := 3; Index.gini := 4 |};
    {| Index.geoid := "11001000201"; Index.MHI := 90000;
       Index.permeability := 2; Index.clustering := 2;
       Index.assortativity := 1; Index.gini := 5 |} ]%R.

End Examples.

(** ** Weak connectivity, as a specification *)

Module Connectivity.
Import Network.

(** The invariant of a networkx graph: node ids are unique and every edge
    joins two nodes of the graph. *)
Definition well_formed (G : MultiDiGraph) : Prop :=
  NoDup (node_ids G)
  /\ forall e, In e (edges G) ->
       In (e_u e) (node_ids G) /\ In (e_v e) (node_ids G).

(** [a] and [b] are joined by an edge, in either direction. *)
Definition adj (G : MultiDiGraph) (a b : Z) : Prop :=
  exists e, In e (edges G)
            /\ ((e_u e = a /\ e_v e = b) \/ (e_u e = b /\ e_v e = a)).

(** Weakly connected: joined by a path that ignores direction. *)
Definition wconn (G : MultiDiGraph) : Z -> Z -> Prop :=
  clos_refl_trans Z (adj G).

(** [c] lists exactly the weakly connected component of [v]. *)
Definition component_of (G : MultiDiGraph) (v : Z) (c : list Z) : Prop :=
  NoDup c /\ forall w, In w c <-> wconn G v w.

(** [u] comes before [w] in the list [l]. *)
Definition before (u w : Z) (l : list Z) : Prop :=
  exists l1 l2, l = l1 ++ u :: l2 /\ In w l2.

(** The nodes at which [wcc_from] starts a search, in the order it
    reaches them. *)
Fixpoint starts_from (G : MultiDiGraph) (todo seen : list Z) : list Z :=
  match todo with
  | [] => []
  | v :: rest =>
      if mem v seen then starts_from G rest seen
      else v :: starts_from G rest (plain_bfs G v ++ seen)
  end.

(** What holds between two rounds of the search started at [v]. *)
Record bfs_inv (G : MultiDiGraph) (v : Z) (seen level : list Z) : Prop := {
  inv_nodup : NoDup seen;
  inv_ids : incl seen (node_ids G);
  inv_level : incl level seen;
  inv_source : In v seen;
  inv_conn : forall a, In a seen -> wconn G v a;
  inv_done : forall a b, In a seen -> ~ In a level -> adj G a b -> In b seen
}.

End Connectivity.

(** ** The Gini coefficient, as a specification *)

Module GiniSpec.
Import Gini.
Open Scope Q_scope.

(** The array after line 109: shifted up by its minimum when that is
    negative. *)
Definition shifted (x0 : Q) (xs : list Q) : list Q :=
  let mn := amin x0 xs in
  if Qltb mn 0 then map (fun v => v - mn) (x0 :: xs) else x0 :: xs.

(** Lines 110-114 on the shifted array. *)
Definition gini_core (y : list Q) : Q :=
  if Qeq_bool (sum y) 0 then 0
  else sum (rank_weighted 1 (Z.of_nat (length (sort y))) (sort y))
       / (inject_Z (Z.of_nat (length (sort y))) * sum (sort y)).

(** The sum of the absolute differences of all ordered pairs of values. *)
Definition pair_gaps (x : list Q) : Q :=
  sum (map (fun a => sum (map (fun b => Qabs (a - b)) x)) x).

(** What line 109 subtracts: the minimum when it is negative, else 0. *)
Definition floor0 (mn : Q) : Q := if Qltb mn 0 then mn else 0.

End GiniSpec.

(** ** The tables around the per-tract loop
       (dc_combine_analysis.py, steps 1, 2 and 5) and the file that
       carries them to DC_TRVI_Spatial_Analysis.py *)

Module Tables.
Import Geometry Network.

(** A row of [dc_tract_median_income_2018-2022_clean.csv]. *)
Record IncomeRow : Type := {
  i_GEOID : string;
  Year : Z;
  i_Median_Household_Income : option Q
}.

(** A row of the shapefile [tl_2022_11_tract.shp]. *)
Record Shape : Type := { s_GEOID : string; s_geometry : Polygon }.

(** Line 19. *)
Definition income_2022_df (income_df : list IncomeRow) : list IncomeRow :=
  filter (fun r => Z.eqb (Year r) 2022) income_df.

(** [left.merge(right, on='GEOID', how='left')]: the rows of [left] in
    their order, each with every row of [right] of the same key, or with
    nothing when there is none. *)
Definition matching {R : Type} (key : R -> string) (g : string)
                    (right : list R) : list R :=
  filter (fun r => String.eqb (key r) g) right.

Definition merge_left {L R : Type} (key_l : L -> string) (key_r : R -> string)
                      (left : list L) (right : list R) : list (L * option R) :=
  flat_map
    (fun l =>
       match matching key_r (key_l l) right with
       | [] => [(l, None)]
       | ms => map (fun r => (l, Some r)) ms
       end)
    left.

(** Line 62: [.replace(-666666666, np.nan)]. *)
Definition replace_sentinel (v : option Q) : option Q :=
  match v with
  | Some q => if Qeq_bool q (-666666666) then None else Some q
  | None => None
  end.

(** Lines 61-62. *)
Definition tracts_with_income_gdf (tracts_gdf : list Shape)
                                  (income_df : list IncomeRow) : list Tract :=
  map (fun lr =>
         {| GEOID := s_GEOID (fst lr);
            geometry := s_geometry (fst lr);
            Median_Household_Income :=
              replace_sentinel
                (match snd lr with
                 | Some r => i_Median_Household_Income r
                 | None => None
                 end) |})
      (merge_left s_GEOID i_GEOID tracts_gdf (income_2022_df income_df)).

Definition row_geoid (r : Row) : string :=
  match r with
  | ErrorRow g _ => g
  | MetricsRow g _ => g
  end.

Definition is_metrics_row (r : Row) : bool :=
  match r with
  | MetricsRow _ _ => true
  | ErrorRow _ _ => false
  end.

(** A row of [dc_utri_analysis.csv] (the tract name is left out). *)
Record OutputRow : Type := {
  o_GEOID : string;
  o_Median_Household_Income : option Q;
  o_metrics : Metrics
}.

Section Loop.

Variable global_efficiency : Graph -> attempt Q.
Variable average_clustering : Graph -> attempt Q.
Variable degree_assortativity_coefficient : MultiDiGraph -> attempt Q.
Variable edge_betweenness_centrality : MultiDiGraph -> attempt (list Q).

(** Lines 116-169: one row per tract. *)
Definition results (G : MultiDiGraph) (tracts : list Tract) : list Row :=
  map (process_tract global_efficiency average_clustering
         degree_assortativity_coefficient edge_betweenness_centrality G)
      tracts.

(** Lines 178-183.  [pd.DataFrame(results)] has the metric columns only
    if some row has them; without them the selection of the output
    columns raises [KeyError]: [None]. *)
Definition final_output_df (G : MultiDiGraph) (tracts : list Tract)
  : option (list OutputRow) :=
  let results_df := results G tracts in
  if existsb is_metrics_row results_df then
    Some (map (fun lr =>
                 {| o_GEOID := GEOID (fst lr);
                    o_Median_Household_Income :=
                      Median_Household_Income (fst lr);
                    o_metrics :=
                      match snd lr with
                      | Some r => metric_columns r
                      | None => no_metrics
                      end |})
              (merge_left GEOID row_geoid tracts results_df))
  else None.

End Loop.

(** [pd.read_csv('dc_utri_analysis.csv')]: an empty cell is a null. *)
Definition read_csv_row (o : OutputRow) : Index.Row :=
  {| Index.GEOID := o_GEOID o;
     Index.Median_Household_Income :=
       option_map Q2R (o_Median_Household_Income o);
     Index.global_permeability :=
       option_map Q2R (global_permeability (o_metrics o));
     Index.avg_clustering_coeff :=
       option_map Q2R (avg_clustering_coeff (o_metrics o));
     Index.degree_assortativity :=
       option_map Q2R (degree_assortativity (o_metrics o));
     Index.gini_edge_betweenness :=
       option_map Q2R (gini_edge_betweenness (o_metrics o)) |}.

End Tables.

(** * Facts *)

(** ** Gini coefficient *)

Section GiniFacts.
Import Gini.
Local Open Scope Q_scope.

Lemma Qltb_true (a b : Q) : Qltb a b = true <-> a < b.
Proof.
  unfold Qltb. rewrite negb_true_iff.
  split; intro H.
  - apply Qnot_le_lt. intro L. apply Qle_bool_iff in L. congruence.
  - destruct (Qle_bool b a) eqn:E; [|reflexivity].
    apply Qle_bool_iff in E. lra.
Qed.

Lemma Qltb_false (a b : Q) : Qltb a b = false <-> b <= a.
Proof.
  unfold Qltb. rewrite negb_false_iff. apply Qle_bool_iff.
Qed.



Lemma sum_nonneg (x : list Q) : Forall (Qle 0) x -> 0 <= sum x.
Proof.
  induction 1 as [|v t Hv _ IH]; simpl; lra.
Qed.

Lemma sum_Permutation (x y : list Q) : Permutation x y -> sum x == sum y.
Proof.
  induction 1; simpl; lra.
Qed.

Lemma insert_Permutation (v : Q) (l : list Q) : Permutation (insert v l) (v :: l).
Proof.
  induction l as [|h t IH]; simpl; [reflexivity|].
  destruct (Qle_bool v h); [reflexivity|].
  rewrite IH. apply perm_swap.
Qed.

Lemma sort_Permutation (x : list Q) : Permutation (sort x) x.
Proof.
  induction x as [|v t IH]; simpl; [reflexivity|].
  rewrite insert_Permutation. now constructor.
Qed.

Lemma insert_sorted (v : Q) (l : list Q) :
  StronglySorted Qle l -> StronglySorted Qle (insert v l).
Proof.
  induction 1 as [|h t Hs IH Hh]; simpl.
  - repeat constructor.
  - destruct (Qle_bool v h) eqn:E.
    + apply Qle_bool_iff in E. constructor.
      * now constructor.
      * constructor; [exact E|].
        eapply Forall_impl; [|exact Hh]. intros a Ha. simpl in Ha. lra.
    + assert (h <= v).
      { apply Qlt_le_weak, Qnot_le_lt. intro K.
        apply Qle_bool_iff in K. congruence. }
      constructor; [exact IH|].
      eapply Permutation_Forall; [symmetry; apply insert_Permutation|].
      now constructor.
Qed.

Lemma sort_sorted (x : list Q) : StronglySorted Qle (sort x).
Proof.
  induction x as [|v t IH]; simpl; [constructor|].
  now apply insert_sorted.
Qed.

(** Shifting the first rank and [n] by one adds every value once. *)
Lemma rank_weighted_shift (x : list Q) :
  forall i n,
    sum (rank_weighted (i + 1) (n + 1) x) == sum (rank_weighted i n x) + sum x.
Proof.
  unfold rank_weighted.
  induction x as [|v t IH]; intros i n.
  - simpl. lra.
  - cbn [length arange combine map sum fst snd].
    rewrite IH.
    replace (2 * (i + 1) - (n + 1) - 1)%Z with (2 * i - n - 1 + 1)%Z by lia.
    rewrite inject_Z_plus. change (inject_Z 1) with 1. ring.
Qed.




Lemma rank_weighted_constant (c : Q) (x : list Q) :
  Forall (fun v => v == c) x ->
  forall i n,
    sum (rank_weighted i n x)
    == c * inject_Z (Z.of_nat (length x))
         * inject_Z (2 * i + Z.of_nat (length x) - n - 2).
Proof.
  unfold rank_weighted.
  induction 1 as [|v t Hv _ IH]; intros i n.
  - simpl. ring.
  - cbn [length arange combine map sum fst snd].
    rewrite IH, Hv, Nat2Z.inj_succ. unfold Z.succ, Z.sub.
    rewrite !inject_Z_plus, !inject_Z_opp, !inject_Z_mult, !inject_Z_plus.
    change (inject_Z 1) with 1. change (inject_Z 2) with 2. ring.
Qed.

Lemma sort_length (x : list Q) : length (sort x) = length x.
Proof. apply Permutation_length, sort_Permutation. Qed.



End GiniFacts.

(** ** Gini coefficient, in binary64 arithmetic *)

Section Float64Facts.
Import Floats Float64.
Local Open Scope float_scope.

















(** The two embeddings side by side on [[1; 2; 3]]: 2/9, and the binary64
    number next to it. *)
Example gini_one_two_three :
  (exists g, Gini.gini_coefficient [1; 2; 3]%Q = Some g /\ (g == 2 # 9)%Q)
  /\ gini_coefficient [1; 2; 3] = Some 0x1.c71c71c71c71cp-3.
Proof.
  split; [eexists; split; [reflexivity|reflexivity]|reflexivity].
Qed.







End Float64Facts.

(** ** Breadth-first search and weakly connected components *)

Section SearchFacts.
Import Network Connectivity.

Lemma mem_In (w : Z) (l : list Z) : mem w l = true <-> In w l.
Proof.
  unfold mem. rewrite existsb_exists. split.
  - intros (x & Hx & E). apply Z.eqb_eq in E. now subst.
  - intro H. exists w. split; [assumption|apply Z.eqb_refl].
Qed.

Lemma mem_not_In (w : Z) (l : list Z) : mem w l = false <-> ~ In w l.
Proof.
  rewrite <- mem_In. destruct (mem w l); split; congruence.
Qed.

Lemma neighbors_adj (G : MultiDiGraph) (a b : Z) :
  In b (neighbors G a) <-> adj G a b.
Proof.
  unfold neighbors, succ, pred, adj.
  rewrite in_app_iff, !in_map_iff. split.
  - intros [(e & Hb & He)|(e & Hb & He)]; apply filter_In in He;
      destruct He as [He Ha]; apply Z.eqb_eq in Ha; exists e; auto.
  - intros (e & He & [[Ha Hb]|[Hb Ha]]).
    + left. exists e. split; [assumption|].
      apply filter_In. split; [assumption|now apply Z.eqb_eq].
    + right. exists e. split; [assumption|].
      apply filter_In. split; [assumption|now apply Z.eqb_eq].
Qed.

Lemma adj_sym (G : MultiDiGraph) (a b : Z) : adj G a b -> adj G b a.
Proof.
  intros (e & He & H). exists e. split; [assumption|]. tauto.
Qed.

Lemma wconn_sym (G : MultiDiGraph) (a b : Z) : wconn G a b -> wconn G b a.
Proof.
  induction 1 as [a b H| |a b c _ IH1 _ IH2].
  - apply rt_step. now apply adj_sym.
  - apply rt_refl.
  - eapply rt_trans; eassumption.
Qed.

Lemma adj_ids (G : MultiDiGraph) (a b : Z) :
  well_formed G -> adj G a b -> In a (node_ids G) /\ In b (node_ids G).
Proof.
  intros [_ Hwf] (e & He & H). destruct (Hwf e He) as [Hu Hv].
  destruct H as [[<- <-]|[<- <-]]; auto.
Qed.

Lemma bfs_rounds_done (fuel : nat) (G : MultiDiGraph) (seen : list Z) :
  bfs_rounds fuel G seen [] = seen.
Proof. destruct fuel; reflexivity. Qed.

Section OneSearch.
Variable G : MultiDiGraph.
Variable v : Z.
Hypothesis Hwf : well_formed G.

Let nextlevel (seen level : list Z) : list Z :=
  nodup Z.eq_dec
    (filter (fun w => negb (mem w seen)) (flat_map (neighbors G) level)).

Lemma nextlevel_In (seen level : list Z) (b : Z) :
  In b (nextlevel seen level)
  <-> ~ In b seen /\ exists a, In a level /\ adj G a b.
Proof.
  unfold nextlevel. rewrite nodup_In, filter_In, in_flat_map, negb_true_iff.
  rewrite mem_not_In. split.
  - intros [(a & Ha & Hb) Hn]. split; [assumption|].
    exists a. split; [assumption|now apply neighbors_adj].
  - intros [Hn (a & Ha & Hb)]. split; [|assumption].
    exists a. split; [assumption|now apply neighbors_adj].
Qed.

Lemma bfs_inv_round (seen level : list Z) :
  bfs_inv G v seen level ->
  bfs_inv G v (seen ++ nextlevel seen level) (nextlevel seen level).
Proof.
  intros [Hnd Hids Hlev Hsrc Hconn Hdone]. constructor.
  - apply NoDup_app; [assumption|apply NoDup_nodup|].
    intros a Ha Hb. apply nextlevel_In in Hb. tauto.
  - intros a Ha. apply in_app_iff in Ha. destruct Ha as [Ha|Ha]; [auto|].
    apply nextlevel_In in Ha. destruct Ha as [_ (c & _ & Hc)].
    now apply (adj_ids G c a).
  - intros a Ha. apply in_app_iff. now right.
  - apply in_app_iff. now left.
  - intros a Ha. apply in_app_iff in Ha. destruct Ha as [Ha|Ha]; [auto|].
    apply nextlevel_In in Ha. destruct Ha as [_ (c & Hc & Hca)].
    eapply rt_trans; [apply Hconn, Hlev, Hc|now apply rt_step].
  - intros a b Ha Hna Hab. apply in_app_iff in Ha.
    destruct Ha as [Ha|Ha]; [|contradiction].
    destruct (in_dec Z.eq_dec b seen) as [Hb|Hb].
    + apply in_app_iff. now left.
    + destruct (in_dec Z.eq_dec a level) as [Hl|Hl].
      * apply in_app_iff. right. apply nextlevel_In.
        split; [assumption|]. now exists a.
      * exfalso. apply Hb. now apply (Hdone a b).
Qed.

Lemma bfs_rounds_inv (fuel : nat) :
  forall seen level,
    bfs_inv G v seen level ->
    (length (node_ids G) - length seen < fuel)%nat ->
    bfs_inv G v (bfs_rounds fuel G seen level) [].
Proof.
  induction fuel as [|fuel IH]; intros seen level Hinv Hfuel; [lia|].
  cbn [bfs_rounds]. destruct level as [|l0 level'] eqn:El.
  - exact Hinv.
  - rewrite <- El in *. fold (nextlevel seen level).
    pose proof (bfs_inv_round seen level Hinv) as Hnext.
    destruct (nextlevel seen level) as [|b next'] eqn:En.
    + rewrite bfs_rounds_done. exact Hnext.
    + rewrite <- En in *. apply IH; [exact Hnext|].
      pose proof (NoDup_incl_length (inv_nodup _ _ _ _ Hnext)
                                    (inv_ids _ _ _ _ Hnext)) as Hlen.
      rewrite length_app in *. rewrite En in *. cbn [length] in *. lia.
Qed.

Lemma plain_bfs_inv :
  In v (node_ids G) -> bfs_inv G v (plain_bfs G v) [].
Proof.
  intro Hv. unfold plain_bfs, number_of_nodes.
  apply bfs_rounds_inv.
  - constructor.
    + repeat constructor. intros [].
    + intros a [<-|[]]. exact Hv.
    + apply incl_refl.
    + now left.
    + intros a [<-|[]]. apply rt_refl.
    + intros a b [<-|[]] Hn _. exfalso. apply Hn. now left.
  - unfold node_ids. rewrite length_map. cbn [length].
    assert (length (nodes G) <> 0)%nat.
    { unfold node_ids in Hv. destruct (nodes G); [destruct Hv|discriminate]. }
    lia.
Qed.

(** The search started at a node returns exactly its weakly connected
    component, each node once. *)
Lemma plain_bfs_component :
  In v (node_ids G) -> component_of G v (plain_bfs G v).
Proof.
  intro Hv. destruct (plain_bfs_inv Hv) as [Hnd _ _ Hsrc Hconn Hdone].
  split; [assumption|]. intro w. split; [apply Hconn|].
  intro Hw. apply clos_rt_rtn1 in Hw.
  induction Hw as [|b c Hbc _ IH]; [assumption|].
  apply (Hdone b c); auto.
Qed.

End OneSearch.

Lemma component_of_shared (G : MultiDiGraph) (s v : Z) (c : list Z) :
  component_of G s c -> wconn G s v -> component_of G v c.
Proof.
  intros [Hnd Hc] Hsv. split; [assumption|]. intro w. rewrite Hc. split.
  - intro Hsw. eapply rt_trans; [apply wconn_sym, Hsv|exact Hsw].
  - intro Hvw. eapply rt_trans; eassumption.
Qed.

Lemma component_of_length (G : MultiDiGraph) (v : Z) (c c' : list Z) :
  component_of G v c -> component_of G v c' -> length c = length c'.
Proof.
  intros [Hnd Hc] [Hnd' Hc']. apply Permutation_length.
  apply NoDup_Permutation; [assumption|assumption|].
  intro w. now rewrite Hc, Hc'.
Qed.

Lemma wcc_from_starts (G : MultiDiGraph) (todo : list Z) :
  forall seen,
    wcc_from G todo seen = map (plain_bfs G) (starts_from G todo seen).
Proof.
  induction todo as [|x rest IH]; intro seen; [reflexivity|].
  cbn [wcc_from starts_from]. destruct (mem x seen); [apply IH|].
  cbn [map]. now rewrite IH.
Qed.

Lemma starts_from_In (G : MultiDiGraph) (todo : list Z) :
  forall seen s, In s (starts_from G todo seen) -> In s todo.
Proof.
  induction todo as [|x rest IH]; intros seen s Hs; [destruct Hs|].
  cbn [starts_from] in Hs. destruct (mem x seen).
  - right. eapply IH, Hs.
  - destruct Hs as [<-|Hs]; [now left|]. right. eapply IH, Hs.
Qed.

Lemma before_cons (x u w : Z) (l : list Z) : before u w l -> before u w (x :: l).
Proof.
  intros (l1 & l2 & -> & Hw). now exists (x :: l1), l2.
Qed.

(** Searches start in iteration order. *)
Lemma starts_from_order (G : MultiDiGraph) (todo : list Z) :
  forall seen p a q b,
    starts_from G todo seen = p ++ a :: q -> In b q -> before a b todo.
Proof.
  induction todo as [|x rest IH]; intros seen p a q b E Hb.
  - destruct p; discriminate E.
  - cbn [starts_from] in E. destruct (mem x seen).
    + apply before_cons. eapply IH; eassumption.
    + destruct p as [|p0 p']; injection E as Ex E.
      * subst a. exists [], rest. split; [reflexivity|].
        apply (starts_from_In G rest (plain_bfs G x ++ seen)).
        rewrite E. exact Hb.
      * apply before_cons. eapply IH; eassumption.
Qed.

(** Every node not seen before is reached from a start at or before it. *)
Lemma starts_from_cover (G : MultiDiGraph) (todo : list Z) :
  well_formed G -> incl todo (node_ids G) ->
  forall seen w,
    In w todo -> ~ In w seen ->
    exists s, In s (starts_from G todo seen)
              /\ wconn G s w /\ (s = w \/ before s w todo).
Proof.
  intros Hwf. induction todo as [|x rest IH]; intros Hin seen w Hw Hns.
  - destruct Hw.
  - assert (incl rest (node_ids G)) as Hrest.
    { intros a Ha. apply Hin. now right. }
    cbn [starts_from]. destruct (mem x seen) eqn:Hx.
    + apply mem_In in Hx. destruct Hw as [->|Hw]; [contradiction|].
      destruct (IH Hrest seen w Hw Hns) as (s & Hs & Hc & Hb).
      exists s. repeat split; try assumption.
      destruct Hb as [->|Hb]; [now left|right; now apply before_cons].
    + assert (In x (node_ids G)) as Hxid by (apply Hin; now left).
      destruct (plain_bfs_component G x Hwf Hxid) as [_ Hcomp].
      destruct (in_dec Z.eq_dec w (plain_bfs G x)) as [Hwc|Hwc].
      * exists x. split; [now left|]. split; [now apply Hcomp|].
        destruct Hw as [->|Hw]; [now left|]. right.
        now exists [], rest.
      * assert (w <> x) as Hne.
        { intros ->. apply Hwc, Hcomp, rt_refl. }
        destruct Hw as [->|Hw]; [congruence|].
        assert (~ In w (plain_bfs G x ++ seen)) as Hns'.
        { rewrite in_app_iff. tauto. }
        destruct (IH Hrest _ w Hw Hns') as (s & Hs & Hc & Hb).
        exists s. split; [now right|]. split; [assumption|].
        destruct Hb as [->|Hb]; [now left|right; now apply before_cons].
Qed.

(** Python's [max]: the result is the first element of greatest length. *)
Lemma max_len_from_first (cs : list (list Z)) :
  forall best,
    exists pre post,
      best :: cs = pre ++ max_len_from best cs :: post
      /\ Forall (fun c => (length c < length (max_len_from best cs))%nat) pre
      /\ Forall (fun c => (length c <= length (max_len_from best cs))%nat) post.
Proof.
  induction cs as [|c rest IH]; intro best.
  - exists [], []. repeat split; constructor.
  - cbn [max_len_from].
    destruct (Nat.ltb_spec (length best) (length c)) as [Hlt|Hge].
    + destruct (IH c) as (pre & post & E & Hpre & Hpost).
      remember (max_len_from c rest) as m eqn:Em. clear Em.
      exists (best :: pre), post. rewrite E. repeat split; [|assumption].
      constructor; [|assumption].
      destruct pre as [|p0 pre']; injection E as E1 _.
      * rewrite <- E1. exact Hlt.
      * subst p0. inversion Hpre; subst. lia.
    + destruct (IH best) as (pre & post & E & Hpre & Hpost).
      remember (max_len_from best rest) as m eqn:Em. clear Em.
      destruct pre as [|p0 pre']; injection E as E1 E2.
      * exists [], (c :: rest). rewrite <- E1.
        repeat split; [constructor|].
        constructor; [exact Hge|]. rewrite E2, E1. exact Hpost.
      * subst p0. exists (best :: c :: pre'), post. rewrite E2.
        inversion Hpre; subst. repeat split; [|assumption].
        constructor; [assumption|]. constructor; [lia|assumption].
Qed.

Lemma kept_ids_NoDup (keep : Network.Node -> bool) (ns : list Network.Node) :
  NoDup (map osmid ns) -> NoDup (map osmid (filter keep ns)).
Proof.
  intro Hnd. induction ns as [|n ns IH]; [constructor|].
  cbn [map] in Hnd. apply NoDup_cons_iff in Hnd. destruct Hnd as [Hn Hnd].
  cbn [filter]. destruct (keep n); [|auto].
  cbn [map]. apply NoDup_cons; [|auto].
  rewrite in_map_iff. intros (n' & E & Hn'). apply Hn.
  apply filter_In in Hn'. rewrite <- E. apply in_map. tauto.
Qed.

Lemma subgraph_node_ids (G : MultiDiGraph) (nbunch : list Z) (w : Z) :
  In w (node_ids (subgraph G nbunch)) <-> In w (node_ids G) /\ In w nbunch.
Proof.
  unfold node_ids, subgraph. cbn [nodes]. rewrite !in_map_iff. split.
  - intros (n & <- & Hn). apply filter_In in Hn. destruct Hn as [Hn Hm].
    apply mem_In in Hm. split; [now exists n|assumption].
  - intros [(n & <- & Hn) Hm]. exists n. split; [reflexivity|].
    apply filter_In. split; [assumption|now apply mem_In].
Qed.

Lemma subgraph_well_formed (G : MultiDiGraph) (nbunch : list Z) :
  well_formed G -> well_formed (subgraph G nbunch).
Proof.
  intros [Hnd Hed]. split.
  - unfold node_ids, subgraph. cbn [nodes]. now apply kept_ids_NoDup.
  - intros e He. cbn [subgraph edges] in He. apply filter_In in He.
    destruct He as [He Hm]. apply andb_true_iff in Hm.
    destruct Hm as [Hu Hv]. apply mem_In in Hu, Hv.
    destruct (Hed e He). split; apply subgraph_node_ids; auto.
Qed.

Lemma plain_bfs_ids (G : MultiDiGraph) (v w : Z) :
  well_formed G -> In v (node_ids G) ->
  In w (plain_bfs G v) -> In w (node_ids G).
Proof.
  intros Hwf Hv Hw. exact (inv_ids _ _ _ _ (plain_bfs_inv G v Hwf Hv) w Hw).
Qed.

Lemma NoDup_split_unique (b : Z) (l1 : list Z) :
  forall l2 l3 l4,
    NoDup (l1 ++ b :: l2) -> l1 ++ b :: l2 = l3 ++ b :: l4 ->
    l1 = l3 /\ l2 = l4.
Proof.
  induction l1 as [|a l1 IH]; intros l2 l3 l4 Hnd E.
  - destruct l3 as [|c l3]; cbn in E.
    + injection E as E2. auto.
    + injection E as E1 E2. subst c. inversion Hnd as [|? ? Hn _]; subst.
      exfalso. apply Hn. apply in_app_iff. right. now left.
  - destruct l3 as [|c l3]; cbn in E; injection E as E1 E2.
    + subst a. inversion Hnd as [|? ? Hn _]; subst.
      exfalso. apply Hn. apply in_app_iff. right. now left.
    + subst c. inversion Hnd; subst.
      destruct (IH l2 l3 l4) as [-> ->]; auto.
Qed.

Lemma before_trans (a b c : Z) (l : list Z) :
  NoDup l -> before a b l -> before b c l -> before a c l.
Proof.
  intros Hnd (l1 & l2 & E & Hb) (l3 & l4 & E' & Hc).
  apply in_split in Hb. destruct Hb as (m1 & m2 & ->).
  exists l1, (m1 ++ b :: m2). split; [assumption|].
  assert (l = (l1 ++ a :: m1) ++ b :: m2) as E2.
  { rewrite E, <- app_assoc. reflexivity. }
  rewrite E2 in Hnd. rewrite E2 in E'.
  destruct (NoDup_split_unique b _ _ _ _ Hnd E') as [_ ->].
  apply in_app_iff. right. now right.
Qed.

Lemma filter_length_le {A : Type} (p q : A -> bool) (l : list A) :
  (forall a, In a l -> p a = true -> q a = true) ->
  (length (filter p l) <= length (filter q l))%nat.
Proof.
  induction l as [|a l IH]; intro H; [apply Nat.le_refl|].
  cbn [filter].
  assert (length (filter p l) <= length (filter q l))%nat as IH'.
  { apply IH. intros b Hb. apply H. now right. }
  destruct (p a) eqn:Hp.
  - rewrite (H a (or_introl eq_refl) Hp). cbn [length]. lia.
  - destruct (q a); cbn [length]; lia.
Qed.

Lemma selected_in_subgraph (G : MultiDiGraph) (tract : Tract) :
  (length (nodes_within_tract G tract)
   <= number_of_nodes (subgraph G (map osmid (nodes_within_tract G tract))))%nat.
Proof.
  unfold number_of_nodes, subgraph, nodes_within_tract. cbn [nodes].
  apply filter_length_le. intros n Hn Hw. apply mem_In, in_map.
  apply filter_In. now split.
Qed.

(** The largest component of a well-formed graph with at least one node. *)
Lemma largest_cc_nodes_spec (sub : MultiDiGraph) :
  well_formed sub -> (0 < number_of_nodes sub)%nat ->
  exists C sC,
    largest_cc_nodes sub = Some C
    /\ In sC (node_ids sub) /\ C = plain_bfs sub sC
    /\ (forall v c, In v (node_ids sub) -> component_of sub v c ->
                    (length c <= length C)%nat)
    /\ (forall v c, In v (node_ids sub) -> component_of sub v c ->
                    length c = length C -> ~ In v C ->
                    before sC v (node_ids sub)).
Proof.
  intros Hwf Hpos.
  unfold largest_cc_nodes, weakly_connected_components.
  rewrite wcc_from_starts.
  set (ids := node_ids sub). set (starts := starts_from sub ids []).
  assert (exists x rest, starts = x :: rest) as (x & rest & Est).
  { subst starts ids. unfold node_ids, number_of_nodes in *.
    destruct (nodes sub) as [|n ns]; [cbn in Hpos; lia|].
    cbn. eauto. }
  rewrite Est. cbn [map max_key_len].
  destruct (max_len_from_first (map (plain_bfs sub) rest) (plain_bfs sub x))
    as (pre & post & E & Hpre & Hpost).
  set (C := max_len_from (plain_bfs sub x) (map (plain_bfs sub) rest)) in *.
  change (plain_bfs sub x :: map (plain_bfs sub) rest)
    with (map (plain_bfs sub) (x :: rest)) in E.
  rewrite <- Est in E.
  apply map_eq_app in E. destruct E as (sp & sq' & Esplit & Emp & Emq).
  apply map_eq_cons in Emq. destruct Emq as (sC & sq & -> & EC & Emq).
  assert (forall s, In s starts -> In s ids) as Hstarts.
  { intros s Hs. eapply starts_from_In, Hs. }
  assert (In sC ids) as HsC.
  { apply Hstarts. rewrite Esplit. apply in_app_iff. right. now left. }
  assert (forall v c, In v ids -> component_of sub v c ->
            exists s, In s starts /\ wconn sub s v
                      /\ (s = v \/ before s v ids)
                      /\ length c = length (plain_bfs sub s)) as Hcover.
  { intros v c Hv Hc.
    destruct (starts_from_cover sub ids Hwf (incl_refl _) [] v Hv (fun F => F))
      as (s & Hs & Hsv & Hb).
    exists s. repeat split; try assumption.
    apply (component_of_length sub v); [assumption|].
    apply (component_of_shared sub s); [|assumption].
    apply plain_bfs_component; auto. }
  exists C, sC. split; [reflexivity|]. split; [assumption|].
  split; [now symmetry|]. split.
  - intros v c Hv Hc. destruct (Hcover v c Hv Hc) as (s & Hs & _ & _ & ->).
    rewrite Esplit in Hs. apply in_app_iff in Hs.
    destruct Hs as [Hs|[<-|Hs]].
    + rewrite Forall_forall in Hpre. apply Nat.lt_le_incl, Hpre.
      rewrite <- Emp. now apply in_map.
    + rewrite EC. apply Nat.le_refl.
    + rewrite Forall_forall in Hpost. apply Hpost.
      rewrite <- Emq. now apply in_map.
  - intros v c Hv Hc Hlen HvC.
    destruct (Hcover v c Hv Hc) as (s & Hs & Hsv & Hb & Hl).
    rewrite Esplit in Hs. apply in_app_iff in Hs.
    destruct Hs as [Hs|[<-|Hs]].
    + exfalso. rewrite Forall_forall in Hpre.
      assert (length (plain_bfs sub s) < length C)%nat.
      { apply Hpre. rewrite <- Emp. now apply in_map. }
      lia.
    + exfalso. apply HvC. rewrite <- EC.
      now apply (plain_bfs_component sub sC Hwf HsC).
    + assert (before sC s ids) as Hbs.
      { eapply starts_from_order; [exact Esplit|exact Hs]. }
      destruct Hb as [<-|Hb]; [assumption|].
      eapply before_trans; [apply Hwf|eassumption|eassumption].
Qed.

Lemma reordered_well_formed (sub : MultiDiGraph) (order : list Node) :
  well_formed sub -> Permutation order (nodes sub) ->
  well_formed (reordered sub order).
Proof.
  intros [Hnd Hed] Hp.
  assert (Permutation (node_ids sub) (node_ids (reordered sub order))) as Hids.
  { unfold node_ids, reordered. cbn [nodes].
    apply Permutation_map, Permutation_sym, Hp. }
  split.
  - eapply Permutation_NoDup; eassumption.
  - intros e He. cbn [reordered edges] in He. destruct (Hed e He).
    split; eapply Permutation_in; eassumption.
Qed.

(** C3: when at least three nodes are selected, lines 135-137 keep exactly
    the nodes of one weakly connected component of the induced subgraph;
    no component is larger; and every other component of the same size has
    all its nodes after the kept component's first node in the order in
    which the copy of the induced subgraph lists its nodes, whatever that
    order is. *)
Theorem largest_component_kept
    (G : MultiDiGraph) (tract : Tract) (order : list Node) :
  well_formed G ->
  (3 <= length (nodes_within_tract G tract))%nat ->
  Permutation order
    (nodes (subgraph G (map osmid (nodes_within_tract G tract)))) ->
  let sub :=
    reordered (subgraph G (map osmid (nodes_within_tract G tract))) order in
  exists C,
    largest_cc_nodes sub = Some C
    /\ (forall w, In w (node_ids (keep_largest sub)) <-> In w C)
    /\ (exists s, In s (node_ids sub) /\ component_of sub s C)
    /\ (forall v c, In v (node_ids sub) -> component_of sub v c ->
                    (length c <= length C)%nat)
    /\ (forall v c, In v (node_ids sub) -> component_of sub v c ->
                    length c = length C -> ~ In v C ->
                    exists u, In u C /\ before u v (map osmid order)).
Proof.
  intros Hwf Hsel Hp sub.
  assert (well_formed sub) as Hsub.
  { apply reordered_well_formed; [now apply subgraph_well_formed|exact Hp]. }
  assert (0 < number_of_nodes sub)%nat as Hpos.
  { pose proof (selected_in_subgraph G tract) as Hle.
    unfold number_of_nodes in *. subst sub. cbn [reordered nodes].
    rewrite (Permutation_length Hp). lia. }
  destruct (largest_cc_nodes_spec sub Hsub Hpos)
    as (C & sC & HC & HsC & EC & Hmax & Htie).
  pose proof (plain_bfs_component sub sC Hsub HsC) as Hcomp.
  rewrite <- EC in Hcomp.
  exists C. split; [assumption|]. split; [|split; [|split]].
  - intro w. unfold keep_largest.
    apply Nat.ltb_lt in Hpos. rewrite Hpos, HC.
    rewrite subgraph_node_ids. split; [tauto|].
    intro Hw. split; [|assumption].
    rewrite EC in Hw. eapply plain_bfs_ids; eassumption.
  - now exists sC.
  - exact Hmax.
  - intros v c Hv Hc Hlen HvC. exists sC. split.
    + apply Hcomp, rt_refl.
    + exact (Htie v c Hv Hc Hlen HvC).
Qed.

Lemma two_triangles_well_formed : well_formed Examples.two_triangles.
Proof.
  split.
  - unfold node_ids. cbn. repeat constructor; cbn; intuition discriminate.
  - intros e He. cbn in He.
    repeat (destruct He as [<-|He]; [cbn; intuition auto|]). destruct He.
Qed.

Lemma largest_component_kept_witness :
  let G := Examples.two_triangles in
  let tract := Examples.square_tract in
  let order :=
    rev (nodes (subgraph G (map osmid (nodes_within_tract G tract)))) in
  let sub :=
    reordered (subgraph G (map osmid (nodes_within_tract G tract))) order in
  exists C,
    largest_cc_nodes sub = Some C
    /\ (forall w, In w (node_ids (keep_largest sub)) <-> In w C)
    /\ (exists s, In s (node_ids sub) /\ component_of sub s C)
    /\ (forall v c, In v (node_ids sub) -> component_of sub v c ->
                    (length c <= length C)%nat)
    /\ (forall v c, In v (node_ids sub) -> component_of sub v c ->
                    length c = length C -> ~ In v C ->
                    exists u, In u C /\ before u v (map osmid order)).
Proof.
  apply (largest_component_kept Examples.two_triangles Examples.square_tract).
  - exact two_triangles_well_formed.
  - vm_compute. lia.
  - apply Permutation_sym, Permutation_rev.
Defined.

(** On a tie the kept component does depend on the node order of the
    copy: the two triangles of the example have three nodes each. *)
Example tie_follows_node_order :
  let G := Examples.two_triangles in
  let induced :=
    subgraph G (map osmid (nodes_within_tract G Examples.square_tract)) in
  node_ids (keep_largest (reordered induced (nodes induced))) = [1; 2; 3]%Z
  /\ node_ids (keep_largest (reordered induced (rev (nodes induced))))
     = [6; 5; 4]%Z.
Proof. split; vm_compute; reflexivity. Qed.

End SearchFacts.

(** ** Points on the boundary of a tract *)

Section BoundaryFacts.
Import Geometry Network Connectivity.
Local Open Scope Q_scope.

Lemma between_convex (a b t w : Q) :
  0 <= t -> t <= 1 -> w == a + t * (b - a) -> between a b w = true.
Proof.
  intros H0 H1 Hw. unfold between. apply orb_true_iff.
  destruct (Qlt_le_dec b a) as [Hba|Hab].
  - right. apply andb_true_iff. split; apply Qle_bool_iff; nra.
  - left. apply andb_true_iff. split; apply Qle_bool_iff; nra.
Qed.

Lemma on_segment_convex (p a b : Point) (t : Q) :
  0 <= t -> t <= 1 ->
  fst p == fst a + t * (fst b - fst a) ->
  snd p == snd a + t * (snd b - snd a) ->
  on_segment p (a, b) = true.
Proof.
  intros H0 H1 Hx Hy. unfold on_segment.
  repeat (apply andb_true_iff; split).
  - apply Qeq_eq_bool. unfold cross. rewrite Hx, Hy. ring.
  - eapply between_convex; eassumption.
  - eapply between_convex; eassumption.
Qed.

Lemma on_boundary_locate (p : Point) (poly : Polygon) :
  on_boundary p poly -> locate p poly = Boundary.
Proof.
  intros (a & b & t & Hs & H0 & H1 & Hx & Hy). unfold locate.
  assert (existsb (on_segment p) (segments poly) = true) as ->; [|reflexivity].
  apply existsb_exists. exists (a, b). split; [assumption|].
  eapply on_segment_convex; eassumption.
Qed.

Lemma NoDup_map_eq {A B : Type} (f : A -> B) (l : list A) (a b : A) :
  NoDup (map f l) -> In a l -> In b l -> f a = f b -> a = b.
Proof.
  induction l as [|c l IH]; intros Hnd Ha Hb E; [destruct Ha|].
  cbn [map] in Hnd. inversion Hnd as [|? ? Hn Hnd']; subst.
  destruct Ha as [->|Ha], Hb as [->|Hb]; auto.
  - exfalso. apply Hn. rewrite E. now apply in_map.
  - exfalso. apply Hn. rewrite <- E. now apply in_map.
Qed.

Lemma reduced_subgraph_ids (G : MultiDiGraph) (tract : Tract) (w : Z) :
  In w (node_ids (reduced_subgraph G tract)) ->
  In w (node_ids (subgraph G (map osmid (nodes_within_tract G tract)))).
Proof.
  unfold reduced_subgraph.
  destruct (0 <? number_of_nodes _)%nat; [|auto].
  destruct (largest_cc_nodes _); [|auto].
  intro H. now apply subgraph_node_ids in H.
Qed.

(** C10: a node whose point lies on the boundary of the tract polygon is
    not within the polygon, is not among the selected nodes, and (node ids
    being unique) is a node neither of the induced subgraph nor of the
    reduced one. *)
Theorem boundary_node_not_selected (G : MultiDiGraph) (tract : Tract) (n : Node) :
  NoDup (node_ids G) ->
  In n (nodes G) ->
  on_boundary (xy n) (geometry tract) ->
  within (xy n) (geometry tract) = false
  /\ ~ In n (nodes_within_tract G tract)
  /\ ~ In (osmid n)
         (node_ids (subgraph G (map osmid (nodes_within_tract G tract))))
  /\ ~ In (osmid n) (node_ids (reduced_subgraph G tract)).
Proof.
  intros Hnd Hn Hb.
  assert (within (xy n) (geometry tract) = false) as Hw.
  { unfold within. now rewrite on_boundary_locate. }
  assert (~ In n (nodes_within_tract G tract)) as Hsel.
  { unfold nodes_within_tract. rewrite filter_In. intros [_ H]. congruence. }
  assert (~ In (osmid n)
            (node_ids (subgraph G (map osmid (nodes_within_tract G tract)))))
    as Hsub.
  { rewrite subgraph_node_ids. intros [_ H]. apply in_map_iff in H.
    destruct H as (n' & E & Hn'). apply Hsel.
    assert (In n' (nodes G)) as Hn'G.
    { unfold nodes_within_tract in Hn'. now apply filter_In in Hn'. }
    now rewrite <- (NoDup_map_eq osmid (nodes G) n' n Hnd Hn'G Hn E). }
  repeat split; try assumption.
  intro H. now apply Hsub, reduced_subgraph_ids.
Qed.

Lemma boundary_node_not_selected_witness :
  let G := Examples.two_triangles in
  let tract := Examples.square_tract in
  let n := Examples.on_the_edge in
  within (xy n) (geometry tract) = false
  /\ ~ In n (nodes_within_tract G tract)
  /\ ~ In (osmid n)
         (node_ids (subgraph G (map osmid (nodes_within_tract G tract))))
  /\ ~ In (osmid n) (node_ids (reduced_subgraph G tract)).
Proof.
  apply (boundary_node_not_selected Examples.two_triangles
           Examples.square_tract Examples.on_the_edge).
  - unfold node_ids. cbn. repeat constructor; cbn; intuition discriminate.
  - cbn. tauto.
  - exists (0, 10), (0, 0), (7 # 10). cbn. repeat split; try discriminate.
    right. right. right. now left.
Defined.

End BoundaryFacts.

(** ** The per-tract loop: status and guarded metrics *)

Section LoopFacts.
Import Geometry Network Connectivity.

Variable global_efficiency : Graph -> attempt Q.
Variable average_clustering : Graph -> attempt Q.
Variable degree_assortativity_coefficient : MultiDiGraph -> attempt Q.
Variable edge_betweenness_centrality : MultiDiGraph -> attempt (list Q).

Let process := process_tract global_efficiency average_clustering
                 degree_assortativity_coefficient edge_betweenness_centrality.
Let metrics_of := compute_metrics global_efficiency average_clustering
                    degree_assortativity_coefficient edge_betweenness_centrality.

(** C2: the status of a tract is [insufficient_nodes] exactly when fewer
    than three nodes are within its polygon; failing that it is
    [not_viable] exactly when the reduced subgraph has fewer than three
    nodes or no edge; failing both it is [ok] and the row carries the
    metrics of the reduced subgraph.  A row whose status is not [ok] has
    no value in any metric column. *)
Theorem process_tract_status (G : MultiDiGraph) (tract : Tract) :
  let r := process G tract in
  let sub := reduced_subgraph G tract in
  let few := (length (nodes_within_tract G tract) < 3)%nat in
  let poor := (number_of_nodes sub < 3)%nat \/ number_of_edges sub = 0%nat in
  (status r = insufficient_nodes <-> few)
  /\ (~ few -> (status r = not_viable <-> poor))
  /\ (~ few -> ~ poor ->
       status r = ok /\ r = MetricsRow (GEOID tract) (metrics_of sub))
  /\ (status r <> ok ->
       metric_columns r = no_metrics /\ error_column r <> None).
Proof.
  cbv zeta. subst process metrics_of. unfold process_tract.
  destruct (Nat.ltb_spec (length (nodes_within_tract G tract)) 3) as [Hf|Hf].
  - cbn. repeat split; try tauto; try discriminate; try (intros; lia).
  - destruct (Nat.ltb_spec (number_of_nodes (reduced_subgraph G tract)) 3)
      as [Hn|Hn];
    [|destruct (Nat.eqb_spec (number_of_edges (reduced_subgraph G tract)) 0)
      as [He|He]];
    cbn; repeat split; try tauto; try discriminate; try congruence;
    try (intros; lia).
Qed.

(** [gini_coefficient] raises on the empty list only. *)
Lemma gini_coefficient_raises (l : list Q) :
  Gini.gini_coefficient l = None <-> l = [].
Proof.
  destruct l as [|x0 xs]; cbn [Gini.gini_coefficient].
  - tauto.
  - cbv zeta.
    destruct (Qeq_bool _ 0); split; intro H; discriminate H.
Qed.

(** C4: each metric field is [None] exactly when its own computation
    raised, carries the computed value otherwise, and does not depend on
    the other three computations.  For the fourth field the computation
    is [edge_betweenness_centrality] followed by [gini_coefficient]: the
    field is [None] exactly when the former raises or hands over no value
    at all (on which [gini_coefficient] raises), and is the result of
    [gini_coefficient] on the returned values otherwise. *)
Theorem compute_metrics_guarded (sub : MultiDiGraph) :
  let m := metrics_of sub in
  (global_permeability m = None <-> global_efficiency (nx_Graph sub) = Raises)
  /\ (forall q, global_permeability m = Some q
                <-> global_efficiency (nx_Graph sub) = Returns q)
  /\ (avg_clustering_coeff m = None
        <-> average_clustering (nx_Graph sub) = Raises)
  /\ (forall q, avg_clustering_coeff m = Some q
                <-> average_clustering (nx_Graph sub) = Returns q)
  /\ (degree_assortativity m = None
        <-> degree_assortativity_coefficient sub = Raises)
  /\ (forall q, degree_assortativity m = Some q
                <-> degree_assortativity_coefficient sub = Returns q)
  /\ (gini_edge_betweenness m = None
        <-> edge_betweenness_centrality sub = Raises
            \/ edge_betweenness_centrality sub = Returns [])
  /\ (forall l, edge_betweenness_centrality sub = Returns l ->
        gini_edge_betweenness m = Gini.gini_coefficient l)
  /\ (forall q, gini_edge_betweenness m = Some q
                <-> exists l, edge_betweenness_centrality sub = Returns l
                              /\ Gini.gini_coefficient l = Some q)
  /\ (forall ge' ac' da' eb',
        global_permeability m
        = global_permeability
            (compute_metrics global_efficiency ac' da' eb' sub)
        /\ avg_clustering_coeff m
           = avg_clustering_coeff
               (compute_metrics ge' average_clustering da' eb' sub)
        /\ degree_assortativity m
           = degree_assortativity
               (compute_metrics ge' ac' degree_assortativity_coefficient eb' sub)
        /\ gini_edge_betweenness m
           = gini_edge_betweenness
               (compute_metrics ge' ac' da' edge_betweenness_centrality sub)).
Proof.
  cbv zeta. subst metrics_of. unfold compute_metrics.
  cbn [global_permeability avg_clustering_coeff degree_assortativity
       gini_edge_betweenness].
  assert (Hg : forall l,
             guarded (gini_attempt (Returns l)) = Gini.gini_coefficient l).
  { intros l. cbn. destruct (Gini.gini_coefficient l); reflexivity. }
  assert (G1 : forall (A : Type) (a : attempt A),
             guarded a = None <-> a = Raises).
  { intros A [x|]; cbn; split; congruence. }
  assert (G2 : forall (A : Type) (a : attempt A) (q : A),
             guarded a = Some q <-> a = Returns q).
  { intros A [x|] q; cbn; split; congruence. }
  split; [apply G1|]. split; [intros q; apply G2|].
  split; [apply G1|]. split; [intros q; apply G2|].
  split; [apply G1|]. split; [intros q; apply G2|].
  destruct (edge_betweenness_centrality sub) as [l|].
  - rewrite Hg. pose proof (gini_coefficient_raises l) as Hr.
    split; [|split; [|split]].
    + split; [intros H; right; f_equal; tauto|].
      intros [H|H]; [discriminate H|injection H as ->; tauto].
    + intros l' E. now injection E as ->.
    + intros q. split.
      * intros H. now exists l.
      * intros (l' & E & H). now injection E as ->.
    + intros ge' ac' da' eb'. tauto.
  - cbn. split; [|split; [|split]].
    + tauto.
    + intros l E. discriminate E.
    + intros q. split; [discriminate|].
      intros (l & E & _). discriminate E.
    + tauto.
Qed.

End LoopFacts.

(** ** Entropy weights *)

Section WeightFacts.
Import Index.
Local Open Scope R_scope.

Lemma ln_le_minus_1 (x : R) : 0 < x -> ln x <= x - 1.
Proof.
  intro Hx. destruct (Rle_lt_dec (ln x) (x - 1)) as [H|H]; [exact H|].
  exfalso. apply exp_increasing in H. rewrite exp_ln in H by exact Hx.
  pose proof (exp_ineq1_le (x - 1)). lra.
Qed.

Lemma col_min_le (x0 : R) (xs : list R) :
  forall x, In x (x0 :: xs) -> col_min x0 xs <= x.
Proof.
  unfold col_min. induction xs as [|y ys IH]; intros x Hx; cbn [fold_right].
  - destruct Hx as [<-|[]]. lra.
  - pose proof (Rmin_l y (fold_right Rmin x0 ys)).
    pose proof (Rmin_r y (fold_right Rmin x0 ys)).
    destruct Hx as [<-|[<-|Hx]].
    + specialize (IH x0 (or_introl eq_refl)). lra.
    + lra.
    + specialize (IH x (or_intror Hx)). lra.
Qed.

Lemma col_max_ge (x0 : R) (xs : list R) :
  forall x, In x (x0 :: xs) -> x <= col_max x0 xs.
Proof.
  unfold col_max. induction xs as [|y ys IH]; intros x Hx; cbn [fold_right].
  - destruct Hx as [<-|[]]. lra.
  - pose proof (Rmax_l y (fold_right Rmax x0 ys)).
    pose proof (Rmax_r y (fold_right Rmax x0 ys)).
    destruct Hx as [<-|[<-|Hx]].
    + specialize (IH x0 (or_introl eq_refl)). lra.
    + lra.
    + specialize (IH x (or_intror Hx)). lra.
Qed.

Lemma col_min_In (x0 : R) (xs : list R) : In (col_min x0 xs) (x0 :: xs).
Proof.
  unfold col_min. induction xs as [|y ys IH]; cbn [fold_right]; [now left|].
  unfold Rmin at 1. destruct (Rle_dec y (fold_right Rmin x0 ys)).
  - right. now left.
  - destruct IH as [IH|IH]; [now left|right; now right].
Qed.

Lemma minmax_unit (col : list R) : Forall unit_interval (minmax col).
Proof.
  destruct col as [|x0 xs]; [constructor|]. unfold minmax.
  set (mn := col_min x0 xs). set (mx := col_max x0 xs).
  apply Forall_map, Forall_forall. intros x Hx.
  pose proof (col_min_le x0 xs x Hx). pose proof (col_max_ge x0 xs x Hx).
  fold mn in H. fold mx in H0. unfold unit_interval.
  destruct (Req_dec_T (mx - mn) 0) as [E|E].
  - assert (x - mn = 0) as -> by lra. unfold Rdiv. rewrite Rmult_0_l. lra.
  - assert (0 < mx - mn) by lra. split.
    + apply Rmult_le_pos; [lra|]. apply Rlt_le, Rinv_0_lt_compat. lra.
    + apply Rmult_le_reg_r with (mx - mn); [lra|].
      unfold Rdiv. rewrite Rmult_assoc, Rinv_l by exact E. lra.
Qed.

Lemma minmax_has_zero (col : list R) : col <> [] -> In 0 (minmax col).
Proof.
  destruct col as [|x0 xs]; [congruence|]. intros _. unfold minmax.
  apply in_map_iff. exists (col_min x0 xs). split; [|apply col_min_In].
  unfold Rdiv. rewrite Rminus_diag. apply Rmult_0_l.
Qed.

Lemma minmax_length (col : list R) : length (minmax col) = length col.
Proof.
  destruct col; [reflexivity|]. unfold minmax. apply length_map.
Qed.

Lemma flip_unit (col : list R) :
  Forall unit_interval col -> Forall unit_interval (flip col).
Proof.
  intro H. apply Forall_map. eapply Forall_impl; [|exact H].
  unfold unit_interval. intros a Ha. lra.
Qed.

Lemma flip_has_one (col : list R) : In 0 col -> In 1 (flip col).
Proof.
  intro H. apply in_map_iff. exists 0. split; [lra|exact H].
Qed.

Lemma sum_nonneg_R (col : list R) : Forall (Rle 0) col -> 0 <= sum col.
Proof.
  induction 1 as [|v t Hv _ IH]; cbn [sum]; lra.
Qed.

Lemma positives_le (col : list R) : positives col <= INR (length col).
Proof.
  unfold positives. induction col as [|v t IH].
  - cbn. lra.
  - cbn [map sum length]. rewrite S_INR. destruct (Rlt_dec 0 v); lra.
Qed.

Lemma positives_with_zero (col : list R) :
  In 0 col -> positives col <= INR (length col) - 1.
Proof.
  unfold positives. induction col as [|v t IH]; intro H; [destruct H|].
  cbn [map sum length]. rewrite S_INR. destruct H as [->|H].
  - pose proof (positives_le t) as Ht. unfold positives in Ht.
    destruct (Rlt_dec 0 0); lra.
  - specialize (IH H). destruct (Rlt_dec 0 v); lra.
Qed.

(** One term of Gibbs' inequality, from [ln x <= x - 1]. *)
Lemma entropy_term (M s v : R) :
  0 < M -> 0 < s -> 0 <= v ->
  - p_log_p (v / s)
  <= v / s * ln M + (if Rlt_dec 0 v then 1 else 0) / M - v / s.
Proof.
  intros HM Hs Hv. unfold p_log_p.
  destruct (Rlt_dec 0 v) as [Hpos|Hzero].
  - assert (0 < v / s) as Hp by (apply Rdiv_lt_0_compat; assumption).
    destruct (Req_dec_T (v / s) 0) as [E|_]; [lra|].
    set (p := v / s) in *.
    assert (0 < M * p) as HMp by (apply Rmult_lt_0_compat; assumption).
    pose proof (ln_le_minus_1 (/ (M * p)) (Rinv_0_lt_compat _ HMp)) as H.
    rewrite ln_Rinv, ln_mult in H by assumption.
    assert (p * / (M * p) = 1 / M) as E by (field; lra).
    assert (p * (- (ln M + ln p)) <= p * (/ (M * p) - 1)) as H'.
    { apply Rmult_le_compat_l; lra. }
    lra.
  - assert (v = 0) as -> by lra. unfold Rdiv. rewrite !Rmult_0_l.
    destruct (Req_dec_T 0 0); lra.
Qed.

Lemma entropy_terms (M s : R) (col : list R) :
  0 < M -> 0 < s -> Forall (Rle 0) col ->
  - sum (map (fun v => p_log_p (v / s)) col)
  <= sum col / s * ln M + positives col / M - sum col / s.
Proof.
  intros HM Hs. unfold positives. induction 1 as [|v t Hv _ IH].
  - cbn. unfold Rdiv. rewrite !Rmult_0_l. lra.
  - cbn [map sum]. pose proof (entropy_term M s v HM Hs Hv) as H.
    unfold Rdiv in *. lra.
Qed.

Lemma ln_INR_pos (m : nat) : (2 <= m)%nat -> 0 < ln (INR m).
Proof.
  intro H. apply le_INR in H. change (INR 2) with (1 + 1) in H.
  pose proof ln_lt_2.
  destruct (Req_dec_T (INR m) 2) as [->|E]; [lra|].
  assert (ln 2 < ln (INR m)) by (apply ln_increasing; lra). lra.
Qed.

(** The degree of diversification of a non-negative column is not
    negative, and it is positive when the column has an entry 0. *)
Lemma diversification_bounds (col : list R) :
  (2 <= length col)%nat -> Forall (Rle 0) col ->
  let d := diversification (1 / ln (INR (length col))) col in
  0 <= d /\ (In 0 col -> 0 < d).
Proof.
  intros Hm Hcol d. subst d. unfold diversification, entropy_sum.
  pose proof (ln_INR_pos _ Hm) as Hln.
  set (M := INR (length col)) in *.
  assert (0 < M) as HM.
  { subst M. apply lt_0_INR. lia. }
  destruct (Req_dec_T (sum col) 0) as [E|E].
  - rewrite Rmult_0_r. split; intros; lra.
  - assert (0 < sum col) as Hs.
    { pose proof (sum_nonneg_R col Hcol). lra. }
    pose proof (entropy_terms M (sum col) col HM Hs Hcol) as H.
    assert (sum col / sum col = 1) as E1 by (field; exact E).
    rewrite E1 in H.
    set (es := sum (map (fun v => p_log_p (v / sum col)) col)) in *.
    set (k := 1 / ln M).
    assert (0 < k) as Hk by (apply Rdiv_lt_0_compat; lra).
    assert (k * ln M = 1) as Ek by (unfold k; field; lra).
    assert (k * - es <= k * (1 * ln M + positives col / M - 1)) as H'.
    { apply Rmult_le_compat_l; lra. }
    assert (0 < k / M) as HkM by (apply Rdiv_lt_0_compat; assumption).
    assert (k * (positives col / M) = k / M * positives col) as E2
      by (field; lra).
    assert (k / M * M = k) as E3 by (field; lra).
    pose proof (positives_le col) as Hp. fold M in Hp.
    assert (k / M * positives col <= k / M * M) as Hp'.
    { apply Rmult_le_compat_l; lra. }
    split; [lra|]. intro Hz.
    pose proof (positives_with_zero col Hz) as Hp1. fold M in Hp1.
    assert (k / M * positives col <= k / M * (M - 1)) as Hp1'.
    { apply Rmult_le_compat_l; lra. }
    lra.
Qed.

Lemma unit_nonneg (col : list R) : Forall unit_interval col -> Forall (Rle 0) col.
Proof.
  intro H. eapply Forall_impl; [|exact H]. now intros a [Ha _].
Qed.

Lemma div_defined (a b : R) : b <> 0 -> div a b = Some (a / b).
Proof.
  intro Hb. unfold div. destruct (Req_dec_T b 0); [contradiction|reflexivity].
Qed.

Lemma processed_columns (rows : list Complete) :
  rows <> [] ->
  let P := df_processed rows in
  (length (p_permeability P) = length rows
   /\ Forall (Rle 0) (p_permeability P) /\ In 0 (p_permeability P))
  /\ (length (p_clustering P) = length rows /\ Forall (Rle 0) (p_clustering P))
  /\ (length (p_assortativity P) = length rows
      /\ Forall (Rle 0) (p_assortativity P))
  /\ (length (p_gini P) = length rows /\ Forall (Rle 0) (p_gini P)).
Proof.
  intros Hne P. subst P. unfold df_processed, flip.
  cbn [p_permeability p_clustering p_assortativity p_gini].
  rewrite !length_map, !minmax_length, !length_map.
  repeat split;
    try (apply unit_nonneg; first [apply minmax_unit | apply flip_unit, minmax_unit]).
  apply minmax_has_zero. destruct rows; [congruence|discriminate].
Qed.

(** C5, as amended: for a table of at least two rows the four entropy
    weights are numbers, none is negative, and they add up to 1. *)
Theorem weights_ewm_nonneg_sum_one (rows : list Complete) :
  (2 <= length rows)%nat ->
  exists w,
    weights_ewm rows = Some w
    /\ 0 <= w_permeability w /\ 0 <= w_clustering w
    /\ 0 <= w_assortativity w /\ 0 <= w_gini w
    /\ w_permeability w + w_clustering w + w_assortativity w + w_gini w = 1.
Proof.
  intro Hm.
  assert (rows <> []) as Hne by (destruct rows; [cbn in Hm; lia|discriminate]).
  destruct (processed_columns rows Hne)
    as ((L1 & N1 & Z1) & (L2 & N2) & (L3 & N3) & (L4 & N4)).
  unfold weights_ewm. destruct rows as [|r0 rest] eqn:Er; [congruence|].
  rewrite <- Er in *. clear Er.
  pose proof (ln_INR_pos _ Hm) as Hln.
  rewrite div_defined by lra.
  set (P := df_processed rows) in *. set (k := 1 / ln (INR (length rows))).
  destruct (diversification_bounds (p_permeability P)) as [_ H1];
    [lia|assumption|].
  destruct (diversification_bounds (p_clustering P)) as [H2 _];
    [lia|assumption|].
  destruct (diversification_bounds (p_assortativity P)) as [H3 _];
    [lia|assumption|].
  destruct (diversification_bounds (p_gini P)) as [H4 _];
    [lia|assumption|].
  rewrite L1 in H1. rewrite L2 in H2. rewrite L3 in H3. rewrite L4 in H4.
  fold k in H1, H2, H3, H4. specialize (H1 Z1).
  set (d1 := diversification k (p_permeability P)) in *.
  set (d2 := diversification k (p_clustering P)) in *.
  set (d3 := diversification k (p_assortativity P)) in *.
  set (d4 := diversification k (p_gini P)) in *.
  assert (0 < d1 + d2 + d3 + d4) as Hs by lra.
  rewrite !div_defined by lra.
  eexists. split; [reflexivity|].
  cbn [w_permeability w_clustering w_assortativity w_gini].
  assert (0 < / (d1 + d2 + d3 + d4)) as Hi by now apply Rinv_0_lt_compat.
  unfold Rdiv. repeat split; try (apply Rmult_le_pos; lra).
  field. lra.
Qed.

Lemma weights_ewm_nonneg_sum_one_witness :
  exists w,
    weights_ewm Examples.two_rows = Some w
    /\ 0 <= w_permeability w /\ 0 <= w_clustering w
    /\ 0 <= w_assortativity w /\ 0 <= w_gini w
    /\ w_permeability w + w_clustering w + w_assortativity w + w_gini w = 1.
Proof.
  apply (weights_ewm_nonneg_sum_one Examples.two_rows). cbn. lia.
Defined.

(** C5, as stated, fails for a table of a single row: [np.log(1)] is 0,
    [k] is infinite, every entropy is NaN and the weights are not
    numbers. *)
Lemma weights_ewm_single_row :
  ~ (forall rows : list Complete,
       exists w,
         weights_ewm rows = Some w
         /\ 0 <= w_permeability w /\ 0 <= w_clustering w
         /\ 0 <= w_assortativity w /\ 0 <= w_gini w
         /\ w_permeability w + w_clustering w + w_assortativity w + w_gini w
            = 1).
Proof.
  intro H.
  destruct (H [ {| geoid := "11001000100"; MHI := 50000; permeability := 1;
                   clustering := 2; assortativity := 3; gini := 4 |} ])
    as (w & Hw & _).
  unfold weights_ewm in Hw. cbn [length] in Hw.
  change (INR 1) with 1 in Hw. rewrite ln_1 in Hw.
  unfold div at 1 in Hw. destruct (Req_dec_T 0 0); [discriminate|congruence].
Qed.

End WeightFacts.

(** ** TRVI *)

Section TRVIFacts.
Import Index.
Local Open Scope R_scope.

Lemma zscore_length (col : list R) : length (zscore col) = length col.
Proof. unfold zscore. apply length_map. Qed.

Lemma zscore_nth (col : list R) (i : nat) :
  (i < length col)%nat ->
  nth i (zscore col) 0
  = (nth i col 0 - mean col) / (if Req_dec_T (std col) 0 then 1 else std col).
Proof.
  intro Hi. unfold zscore.
  set (f := fun x => (x - mean col) / _).
  rewrite (nth_indep _ 0 (f 0)) by (rewrite length_map; exact Hi).
  apply map_nth.
Qed.


Lemma combine_TRVI_nth (a : list R) :
  forall b i,
    (i < length a)%nat -> length a = length b ->
    nth i (combine_TRVI a b) 0 = - nth i a 0 + - nth i b 0.
Proof.
  induction a as [|x a IH]; intros b i Hi Hlen; [cbn in Hi; lia|].
  destruct b as [|y b]; [discriminate|]. destruct i as [|i]; [reflexivity|].
  cbn [combine_TRVI nth]. apply IH; cbn [length] in *; lia.
Qed.



End TRVIFacts.

(** ** Complete-case filtering *)

Section CompleteCaseFacts.
Import Index.
Local Open Scope R_scope.

Lemma has_null_complete_row (r : Row) : has_null r -> complete_row r = None.
Proof.
  unfold has_null, complete_row.
  intros [H|[H|[H|[H|H]]]]; rewrite H;
    repeat match goal with
           | |- context [match ?o with Some _ => _ | None => _ end] =>
               destruct o
           end; reflexivity.
Qed.

Lemma df_clean_app (l1 l2 : list Row) :
  df_clean (l1 ++ l2) = df_clean l1 ++ df_clean l2.
Proof.
  induction l1 as [|r l1 IH]; [reflexivity|].
  cbn [app df_clean]. destruct (complete_row r); [|exact IH].
  cbn [app]. now rewrite IH.
Qed.

Lemma df_clean_origin (df : list Row) (c : Complete) :
  In c (df_clean df) -> exists r, In r df /\ complete_row r = Some c.
Proof.
  induction df as [|r df IH]; intro H; [destruct H|].
  cbn [df_clean] in H. destruct (complete_row r) as [c'|] eqn:E.
  - destruct H as [<-|H].
    + exists r. split; [now left|exact E].
    + destruct (IH H) as (r' & Hr' & E'). exists r'. split; [now right|exact E'].
  - destruct (IH H) as (r' & Hr' & E'). exists r'. split; [now right|exact E'].
Qed.

Lemma df_final_rows (df : list Row) (c : Complete) (t : option R) :
  In (c, t) (df_final df) -> In c (df_clean df).
Proof.
  unfold df_final. destruct (UTRI_physical (df_clean df)); intro H.
  - eapply in_combine_l, H.
  - apply in_map_iff in H. destruct H as (c' & E & Hc'). now inversion E; subst.
Qed.

(** C9: a row with an empty cell in any of the five columns leaves the
    working table as if the row had not been in the file: the cleaned
    table, the normalised columns, the entropy weights, the final table
    and the table given to Moran's I are those of the file without the
    row; every TRVI value belongs to a complete row of the rest of the
    file. *)
Theorem incomplete_row_dropped (l1 l2 : list Row) (r : Row) :
  has_null r ->
  let df := l1 ++ r :: l2 in
  let rest := l1 ++ l2 in
  df_clean df = df_clean rest
  /\ df_processed (df_clean df) = df_processed (df_clean rest)
  /\ weights_ewm (df_clean df) = weights_ewm (df_clean rest)
  /\ df_final df = df_final rest
  /\ (forall gdf_tracts, gdf_analysis gdf_tracts df = gdf_analysis gdf_tracts rest)
  /\ (forall c, In c (df_clean df) -> complete_row r <> Some c)
  /\ (forall c t, In (c, t) (df_final df) ->
                  exists r', In r' rest /\ complete_row r' = Some c).
Proof.
  intros Hnull df rest.
  pose proof (has_null_complete_row r Hnull) as Hr.
  assert (df_clean df = df_clean rest) as E.
  { subst df rest. rewrite !df_clean_app. cbn [df_clean]. now rewrite Hr. }
  assert (df_final df = df_final rest) as F.
  { unfold df_final. now rewrite E. }
  repeat split.
  - exact E.
  - now rewrite E.
  - now rewrite E.
  - exact F.
  - intro gdf_tracts. unfold gdf_analysis. now rewrite F.
  - intros c _. rewrite Hr. discriminate.
  - intros c t H. rewrite F in H. apply df_final_rows in H.
    now apply df_clean_origin.
Qed.

Lemma incomplete_row_dropped_witness :
  let r := Examples.gap_row in
  let df := [] ++ r :: [] in
  let rest := [] ++ [] in
  df_clean df = df_clean rest
  /\ df_processed (df_clean df) = df_processed (df_clean rest)
  /\ weights_ewm (df_clean df) = weights_ewm (df_clean rest)
  /\ df_final df = df_final rest
  /\ (forall gdf_tracts, gdf_analysis gdf_tracts df = gdf_analysis gdf_tracts rest)
  /\ (forall c, In c (df_clean df) -> complete_row r <> Some c)
  /\ (forall c t, In (c, t) (df_final df) ->
                  exists r', In r' rest /\ complete_row r' = Some c).
Proof.
  apply (incomplete_row_dropped [] [] Examples.gap_row).
  unfold has_null. cbn. tauto.
Defined.

End CompleteCaseFacts.

(** ** The Moran's I loop *)

Section MoranFacts.
Import Index.
Local Open Scope R_scope.

Lemma values_full (col : list (option R)) :
  existsb isnull col = false -> length (values col) = length col.
Proof.
  induction col as [|v col IH]; [reflexivity|].
  cbn [existsb]. destruct v as [x|]; cbn [isnull orb]; [|discriminate].
  intro H. unfold values in *. cbn [flat_map app length].
  now rewrite IH.
Qed.

Lemma column_values_length (t : Table) (col : Indicator) :
  existsb isnull (column t col) = false ->
  length (values (column t col)) = length t.
Proof.
  intro H. rewrite values_full by exact H. unfold column. apply length_map.
Qed.

(** In the table the script itself builds, only the TRVI column can hold
    a null: the other five come from complete rows. *)
Lemma table_of_complete (rows : list (Complete * option R)) (col : Indicator) :
  col <> I_TRVI -> existsb isnull (column (table_of rows) col) = false.
Proof.
  intro Hcol. unfold column, table_of. rewrite map_map.
  induction rows as [|ct rows IH]; [reflexivity|].
  cbn [map existsb]. rewrite IH.
  destruct col; try reflexivity. congruence.
Qed.

Lemma Moran_returns (y : list R) (w : nat -> nat -> R) :
  length y <> 1%nat -> Moran y w = Network.Returns (Moran_I y w).
Proof.
  intro H. unfold Moran.
  destruct (Nat.eqb_spec (length y) 1); [contradiction|reflexivity].
Qed.

(** With more or fewer regions than one the loop runs to its end: a
    column with a null leaves no entry, every other column leaves the
    statistic of all its values. *)
Lemma moran_loop_runs (t : Table) (w : nat -> nat -> R) :
  length t <> 1%nat ->
  forall cols, exists res,
    moran_loop t w cols = Network.Returns res
    /\ forall col,
         (existsb isnull (column t col) = true -> lookup col res = None)
         /\ (existsb isnull (column t col) = false -> In col cols ->
             lookup col res = Some (Moran_I (values (column t col)) w)).
Proof.
  intros Hn cols. induction cols as [|c cols (res & Eres & IH)].
  - exists []. split; [reflexivity|]. intro col.
    split; [reflexivity|]. intros _ [].
  - cbn [moran_loop]. destruct (existsb isnull (column t c)) eqn:Hc.
    + exists res. split; [exact Eres|]. intro col.
      destruct (IH col) as [Hskip Hrun]. split; [exact Hskip|].
      intros Hfull [->|Hin]; [congruence|now apply Hrun].
    + rewrite Moran_returns, Eres
        by (rewrite column_values_length by exact Hc; exact Hn).
      eexists. split; [reflexivity|]. intro col.
      destruct (IH col) as [Hskip Hrun]. cbn [lookup].
      destruct (Indicator_eq_dec col c) as [->|Hne].
      * split; [congruence|reflexivity].
      * split; [exact Hskip|].
        intros Hfull [->|Hin]; [congruence|now apply Hrun].
Qed.

(** With a single region the first column without a null ends the
    script. *)
Lemma moran_loop_one_region (t : Table) (w : nat -> nat -> R)
                            (col : Indicator) :
  length t = 1%nat -> existsb isnull (column t col) = false ->
  forall cols, In col cols -> moran_loop t w cols = Network.Raises.
Proof.
  intros Hn Hfull cols. induction cols as [|c cols IH]; intros Hin; [destruct Hin|].
  cbn [moran_loop]. destruct (existsb isnull (column t c)) eqn:Hc.
  - destruct Hin as [->|Hin]; [congruence|now apply IH].
  - unfold Moran. rewrite (column_values_length t c Hc), Hn. reflexivity.
Qed.

Lemma indicators_all (col : Indicator) : In col indicators.
Proof. unfold indicators. destruct col; cbn; tauto. Qed.

End MoranFacts.

(** * Further facts *)

(** ** The Gini coefficient in exact arithmetic: the order of the values *)

Section GiniMoreFacts.
Import Gini GiniSpec.
Local Open Scope Q_scope.

Lemma gini_coefficient_core (x0 : Q) (xs : list Q) :
  gini_coefficient (x0 :: xs) = Some (gini_core (shifted x0 xs)).
Proof.
  unfold gini_coefficient, gini_core, shifted.
  destruct (Qltb (amin x0 xs) 0); destruct (Qeq_bool _ 0); reflexivity.
Qed.

Lemma amin_le_start (xs : list Q) : forall x0, amin x0 xs <= x0.
Proof.
  induction xs as [|y ys IH]; intro x0; cbn [amin]; [lra|].
  destruct (Qltb y x0) eqn:E.
  - apply Qltb_true in E. specialize (IH y). lra.
  - apply IH.
Qed.

Lemma amin_le (xs : list Q) :
  forall x0 v, In v (x0 :: xs) -> amin x0 xs <= v.
Proof.
  induction xs as [|y ys IH]; intros x0 v Hv; cbn [amin].
  - destruct Hv as [<-|[]]. lra.
  - destruct (Qltb y x0) eqn:E.
    + apply Qltb_true in E. destruct Hv as [<-|Hv].
      * pose proof (amin_le_start ys y). lra.
      * now apply IH.
    + apply Qltb_false in E. destruct Hv as [<-|[<-|Hv]].
      * apply amin_le_start.
      * pose proof (amin_le_start ys x0). lra.
      * apply IH. now right.
Qed.

(** Whatever the input, the array that reaches line 110 has no negative
    entry. *)
Lemma shifted_nonneg (x0 : Q) (xs : list Q) : Forall (Qle 0) (shifted x0 xs).
Proof.
  unfold shifted. destruct (Qltb (amin x0 xs) 0) eqn:E.
  - apply Forall_map, Forall_forall. intros v Hv.
    pose proof (amin_le xs x0 v Hv). lra.
  - apply Qltb_false in E. apply Forall_forall. intros v Hv.
    pose proof (amin_le xs x0 v Hv). lra.
Qed.

Lemma shifted_length (x0 : Q) (xs : list Q) :
  length (shifted x0 xs) = S (length xs).
Proof.
  unfold shifted. destruct (Qltb (amin x0 xs) 0); [apply length_map|reflexivity].
Qed.

Lemma sum_map_ext (f g : Q -> Q) (l : list Q) :
  (forall a, In a l -> f a == g a) -> sum (map f l) == sum (map g l).
Proof.
  induction l as [|a l IH]; intro H; [reflexivity|].
  cbn [map sum]. rewrite (H a (or_introl eq_refl)), IH; [reflexivity|].
  intros b Hb. apply H. now right.
Qed.

Lemma sum_map_plus (f g : Q -> Q) (l : list Q) :
  sum (map (fun a => f a + g a) l) == sum (map f l) + sum (map g l).
Proof.
  induction l as [|a l IH]; cbn [map sum]; [reflexivity|]. rewrite IH. ring.
Qed.

Lemma sum_map_shift (c : Q) (l : list Q) :
  sum (map (fun v => v - c) l) == sum l - inject_Z (Z.of_nat (length l)) * c.
Proof.
  induction l as [|a l IH]; cbn [map sum length].
  - change (inject_Z (Z.of_nat 0)) with 0. ring.
  - rewrite IH, Nat2Z.inj_succ, <- Z.add_1_r, inject_Z_plus.
    change (inject_Z 1) with 1. ring.
Qed.

Lemma gaps_from_below (v : Q) (t : list Q) :
  Forall (Qle v) t ->
  sum (map (fun b => Qabs (v - b)) t)
  == sum t - inject_Z (Z.of_nat (length t)) * v
  /\ sum (map (fun a => Qabs (a - v)) t)
     == sum t - inject_Z (Z.of_nat (length t)) * v.
Proof.
  intro H. rewrite <- sum_map_shift. split; apply sum_map_ext; intros a Ha;
    rewrite Forall_forall in H; specialize (H a Ha).
  - rewrite Qabs_neg by lra. ring.
  - apply Qabs_pos. lra.
Qed.

Lemma pair_gaps_cons (v : Q) (t : list Q) :
  Forall (Qle v) t ->
  pair_gaps (v :: t)
  == pair_gaps t + 2 * (sum t - inject_Z (Z.of_nat (length t)) * v).
Proof.
  intro H. destruct (gaps_from_below v t H) as [Hrow Hcol].
  unfold pair_gaps. cbn [map sum].
  rewrite (sum_map_plus (fun a => Qabs (a - v))
             (fun a => sum (map (fun b => Qabs (a - b)) t)) t).
  rewrite Hrow, Hcol.
  assert (Qabs (v - v) == 0) as ->.
  { rewrite Qabs_pos by lra. ring. }
  ring.
Qed.

Lemma rank_weighted_cons (v : Q) (t : list Q) :
  sum (rank_weighted 1 (Z.of_nat (S (length t))) (v :: t))
  == sum (rank_weighted 1 (Z.of_nat (length t)) t)
     + (sum t - inject_Z (Z.of_nat (length t)) * v).
Proof.
  pose proof (rank_weighted_shift t 1 (Z.of_nat (length t))) as Hs.
  rewrite Nat2Z.inj_succ, <- Z.add_1_r.
  unfold rank_weighted in *. cbn [length arange combine map sum fst snd].
  rewrite Hs.
  replace (2 * 1 - (Z.of_nat (length t) + 1) - 1)%Z
    with (- Z.of_nat (length t))%Z by lia.
  rewrite inject_Z_opp. ring.
Qed.

(** On a sorted array, twice the numerator of line 114 is the sum of the
    absolute differences of all ordered pairs. *)
Lemma sorted_numerator (x : list Q) :
  StronglySorted Qle x ->
  2 * sum (rank_weighted 1 (Z.of_nat (length x)) x) == pair_gaps x.
Proof.
  induction 1 as [|v t _ IH Hv].
  - reflexivity.
  - rewrite pair_gaps_cons by exact Hv. rewrite <- IH.
    cbn [length]. rewrite rank_weighted_cons. ring.
Qed.

Lemma pair_gaps_Permutation (x y : list Q) :
  Permutation x y -> pair_gaps x == pair_gaps y.
Proof.
  intro H. unfold pair_gaps.
  rewrite (sum_Permutation _ _
             (Permutation_map (fun a => sum (map (fun b => Qabs (a - b)) x)) H)).
  apply sum_map_ext. intros a _.
  apply sum_Permutation, Permutation_map, H.
Qed.

Lemma pair_gaps_shift (c : Q) (x : list Q) :
  pair_gaps (map (fun v => v - c) x) == pair_gaps x.
Proof.
  unfold pair_gaps. rewrite map_map. apply sum_map_ext. intros a _.
  rewrite map_map. apply sum_map_ext. intros b _.
  apply Qabs_wd. ring.
Qed.

Lemma sum_zero_all (x : list Q) :
  Forall (Qle 0) x -> sum x == 0 -> Forall (fun v => v == 0) x.
Proof.
  induction 1 as [|v t Hv Ht IH]; intro Hs; [constructor|].
  cbn [sum] in Hs. pose proof (sum_nonneg t Ht).
  constructor; [lra|]. apply IH. lra.
Qed.

Lemma all_zero_pair_gaps (x : list Q) :
  Forall (fun v => v == 0) x -> pair_gaps x == 0.
Proof.
  intro H.
  rewrite <- (pair_gaps_Permutation _ _ (sort_Permutation x)).
  rewrite <- (sorted_numerator (sort x) (sort_sorted x)).
  assert (Forall (fun v => v == 0) (sort x)) as H'.
  { eapply Permutation_Forall; [symmetry; apply sort_Permutation|exact H]. }
  rewrite (rank_weighted_constant 0 (sort x) H'). ring.
Qed.

Lemma gini_core_mean_difference (y : list Q) :
  Forall (Qle 0) y ->
  gini_core y * (2 * inject_Z (Z.of_nat (length y)) * sum y) == pair_gaps y.
Proof.
  intro Hpos. unfold gini_core. destruct (Qeq_bool (sum y) 0) eqn:Hz.
  - apply Qeq_bool_eq in Hz.
    rewrite (all_zero_pair_gaps y (sum_zero_all y Hpos Hz)). ring.
  - apply Qeq_bool_neq in Hz.
    rewrite sort_length, (sum_Permutation _ _ (sort_Permutation y)).
    rewrite <- (pair_gaps_Permutation _ _ (sort_Permutation y)).
    rewrite <- (sorted_numerator (sort y) (sort_sorted y)), sort_length.
    assert (~ inject_Z (Z.of_nat (length y)) == 0) as Hn.
    { destruct y; [exfalso; apply Hz; reflexivity|].
      cbn [length]. rewrite Nat2Z.inj_succ.
      change 0 with (inject_Z 0). rewrite inject_Z_injective. lia. }
    field. split; assumption.
Qed.

Lemma pair_gaps_shifted (x0 : Q) (xs : list Q) :
  pair_gaps (shifted x0 xs) == pair_gaps (x0 :: xs).
Proof.
  unfold shifted. destruct (Qltb (amin x0 xs) 0); [|reflexivity].
  apply pair_gaps_shift.
Qed.

Lemma sum_shifted (x0 : Q) (xs : list Q) :
  sum (shifted x0 xs)
  == sum (x0 :: xs)
     - inject_Z (Z.of_nat (S (length xs))) * floor0 (amin x0 xs).
Proof.
  unfold shifted, floor0. destruct (Qltb (amin x0 xs) 0).
  - apply sum_map_shift.
  - ring.
Qed.

Lemma gini_core_zero_sum (y : list Q) : sum y == 0 -> gini_core y = 0.
Proof.
  intro H. unfold gini_core. now rewrite (Qeq_eq_bool _ _ H).
Qed.

(** Two non-negative arrays of one length whose sums and pair gaps are in
    the same positive ratio have the same coefficient. *)
Lemma gini_core_ratio (c : Q) (y y' : list Q) :
  0 < c -> Forall (Qle 0) y -> Forall (Qle 0) y' ->
  length y' = length y ->
  sum y' == c * sum y -> pair_gaps y' == c * pair_gaps y ->
  gini_core y' == gini_core y.
Proof.
  intros Hc Hy Hy' Hlen Hsum Hgap.
  pose proof (gini_core_mean_difference y Hy) as E.
  pose proof (gini_core_mean_difference y' Hy') as E'.
  rewrite Hlen, Hsum, Hgap, <- E in E'.
  destruct (Qeq_dec (sum y) 0) as [Hz|Hnz].
  - rewrite (gini_core_zero_sum y Hz), (gini_core_zero_sum y'); [reflexivity|].
    rewrite Hsum, Hz. ring.
  - assert (~ inject_Z (Z.of_nat (length y)) == 0) as Hn.
    { destruct y; [exfalso; apply Hnz; reflexivity|].
      cbn [length]. rewrite Nat2Z.inj_succ.
      change 0 with (inject_Z 0). rewrite inject_Z_injective. lia. }
    set (n := inject_Z (Z.of_nat (length y))) in *.
    apply Qmult_inj_r with (2 * n * (c * sum y)).
    + intro K.
      assert (n * (c * sum y) == 0) as K' by lra.
      apply Qmult_integral in K'. destruct K' as [K'|K']; [contradiction|].
      apply Qmult_integral in K'. destruct K' as [K'|K']; [lra|contradiction].
    + rewrite E'. ring.
Qed.

Lemma amin_In (xs : list Q) : forall x0, In (amin x0 xs) (x0 :: xs).
Proof.
  induction xs as [|y ys IH]; intro x0; cbn [amin]; [now left|].
  destruct (Qltb y x0).
  - right. apply IH.
  - destruct (IH x0) as [H|H]; [now left|right; now right].
Qed.

Lemma floor0_wd (a b : Q) : a == b -> floor0 a == floor0 b.
Proof.
  intro H. unfold floor0.
  destruct (Qltb a 0) eqn:Ea, (Qltb b 0) eqn:Eb; try assumption;
    try reflexivity.
  - apply Qltb_true in Ea. apply Qltb_false in Eb. lra.
  - apply Qltb_false in Ea. apply Qltb_true in Eb. lra.
Qed.

(** X4: the result does not depend on the order of the values. *)
Theorem gini_coefficient_Permutation (x y : list Q) :
  Permutation x y -> x <> [] ->
  exists g g',
    gini_coefficient x = Some g /\ gini_coefficient y = Some g' /\ g == g'.
Proof.
  intros Hp Hne.
  destruct x as [|x0 xs]; [congruence|].
  destruct y as [|y0 ys]; [apply Permutation_sym, Permutation_nil in Hp; discriminate|].
  rewrite !gini_coefficient_core. do 2 eexists.
  split; [reflexivity|]. split; [reflexivity|].
  assert (length xs = length ys) as Hlen.
  { apply Permutation_length in Hp. cbn [length] in Hp. lia. }
  assert (amin x0 xs == amin y0 ys) as Hmin.
  { pose proof (amin_le ys y0 (amin x0 xs)
                  (Permutation_in _ Hp (amin_In xs x0))).
    pose proof (amin_le xs x0 (amin y0 ys)
                  (Permutation_in _ (Permutation_sym Hp) (amin_In ys y0))).
    lra. }
  symmetry. apply (gini_core_ratio 1).
  - lra.
  - apply shifted_nonneg.
  - apply shifted_nonneg.
  - rewrite !shifted_length. lia.
  - rewrite !sum_shifted, Hlen, (floor0_wd _ _ Hmin).
    rewrite (sum_Permutation _ _ Hp). ring.
  - rewrite !pair_gaps_shifted, (pair_gaps_Permutation _ _ Hp). ring.
Qed.

Lemma gini_coefficient_Permutation_witness :
  exists g g',
    gini_coefficient [3; -1; 2] = Some g
    /\ gini_coefficient [2; 3; -1] = Some g' /\ g == g'.
Proof.
  apply (gini_coefficient_Permutation [3; -1; 2] [2; 3; -1]).
  - apply Permutation_sym, (Permutation_cons_app [3; -1] [] 2).
    rewrite app_nil_r. apply Permutation_refl.
  - discriminate.
Defined.

End GiniMoreFacts.

(** ** Components and the reduced subgraph *)

Section ComponentMoreFacts.
Import Network Connectivity.

Lemma starts_from_fresh (G : MultiDiGraph) (todo : list Z) :
  forall seen s, In s (starts_from G todo seen) -> ~ In s seen.
Proof.
  induction todo as [|x rest IH]; intros seen s Hs; [destruct Hs|].
  cbn [starts_from] in Hs. destruct (mem x seen) eqn:Hx.
  - now apply IH.
  - apply mem_not_In in Hx. destruct Hs as [<-|Hs]; [exact Hx|].
    apply IH in Hs. rewrite in_app_iff in Hs. tauto.
Qed.

(** Two nodes at which searches start are never weakly connected. *)
Lemma starts_from_apart (G : MultiDiGraph) (todo : list Z) :
  well_formed G -> incl todo (node_ids G) ->
  forall seen p a q b,
    starts_from G todo seen = p ++ a :: q -> In b q -> ~ wconn G a b.
Proof.
  intro Hwf. induction todo as [|x rest IH]; intros Hin seen p a q b E Hb.
  - destruct p; discriminate E.
  - assert (incl rest (node_ids G)) as Hrest.
    { intros w Hw. apply Hin. now right. }
    cbn [starts_from] in E. destruct (mem x seen).
    + eapply IH; eassumption.
    + destruct p as [|p0 p']; injection E as Ex E.
      * subst a. intro Hc.
        assert (In b (starts_from G rest (plain_bfs G x ++ seen))) as Hb'.
        { rewrite E. exact Hb. }
        apply starts_from_fresh in Hb'. apply Hb'. apply in_app_iff. left.
        apply (plain_bfs_component G x Hwf); [apply Hin; now left|exact Hc].
      * eapply IH; eassumption.
Qed.

Lemma starts_from_components_NoDup (G : MultiDiGraph) (starts : list Z) :
  well_formed G -> incl starts (node_ids G) ->
  (forall p a q b, starts = p ++ a :: q -> In b q -> ~ wconn G a b) ->
  NoDup (concat (map (plain_bfs G) starts)).
Proof.
  intros Hwf. induction starts as [|s rest IH]; intros Hin Hapart.
  - constructor.
  - cbn [map concat].
    assert (In s (node_ids G)) as Hs by (apply Hin; now left).
    destruct (plain_bfs_component G s Hwf Hs) as [Hnd Hc].
    apply NoDup_app; [exact Hnd| |].
    + apply IH.
      * intros w Hw. apply Hin. now right.
      * intros p a q b E Hb. apply (Hapart (s :: p) a q b); [|exact Hb].
        now rewrite E.
    + intros w Hw Hw'. apply in_concat in Hw'.
      destruct Hw' as (c & Hc' & Hwc). apply in_map_iff in Hc'.
      destruct Hc' as (s' & <- & Hs').
      apply (Hapart [] s rest s' eq_refl Hs').
      assert (In s' (node_ids G)) as Hs'G by (apply Hin; now right).
      eapply rt_trans; [apply Hc, Hw|].
      apply wconn_sym. now apply (plain_bfs_component G s' Hwf Hs'G).
Qed.

(** X6: the components that [nx.weakly_connected_components] yields
    partition the nodes: listed one after the other they are the nodes of
    the graph, each once; and each of them is the weakly connected
    component of one of its nodes. *)
Theorem weakly_connected_components_partition (G : MultiDiGraph) :
  well_formed G ->
  Permutation (concat (weakly_connected_components G)) (node_ids G)
  /\ Forall (fun c => exists s, In s c /\ component_of G s c)
            (weakly_connected_components G).
Proof.
  intro Hwf. unfold weakly_connected_components. rewrite wcc_from_starts.
  set (starts := starts_from G (node_ids G) []).
  assert (incl starts (node_ids G)) as Hin.
  { intros s Hs. eapply starts_from_In, Hs. }
  split.
  - apply NoDup_Permutation.
    + apply starts_from_components_NoDup; [exact Hwf|exact Hin|].
      intros p a q b E Hb.
      eapply (starts_from_apart G (node_ids G) Hwf (incl_refl _)); eassumption.
    + apply Hwf.
    + intro w. split.
      * intro Hw. apply in_concat in Hw. destruct Hw as (c & Hc & Hwc).
        apply in_map_iff in Hc. destruct Hc as (s & <- & Hs).
        eapply plain_bfs_ids; [exact Hwf|apply Hin, Hs|exact Hwc].
      * intro Hw.
        destruct (starts_from_cover G (node_ids G) Hwf (incl_refl _) [] w Hw
                    (fun F => F)) as (s & Hs & Hsw & _).
        apply in_concat. exists (plain_bfs G s). split; [now apply in_map|].
        now apply (plain_bfs_component G s Hwf (Hin s Hs)).
  - apply Forall_map, Forall_forall. intros s Hs.
    pose proof (plain_bfs_component G s Hwf (Hin s Hs)) as Hc.
    exists s. split; [|exact Hc]. apply Hc, rt_refl.
Qed.

Lemma weakly_connected_components_partition_witness :
  let G := Examples.two_triangles in
  Permutation (concat (weakly_connected_components G)) (node_ids G)
  /\ Forall (fun c => exists s, In s c /\ component_of G s c)
            (weakly_connected_components G).
Proof.
  apply (weakly_connected_components_partition Examples.two_triangles).
  exact two_triangles_well_formed.
Defined.

(** Inside a component, weak connectivity does not need the rest of the
    graph. *)
Lemma component_connected_inside (G : MultiDiGraph) (s : Z) (C : list Z) :
  component_of G s C ->
  forall a, wconn G s a -> wconn (subgraph G C) s a.
Proof.
  intros [_ HC] a Ha. apply clos_rt_rtn1 in Ha.
  induction Ha as [|b c Hbc Hsb IH]; [apply rt_refl|].
  apply clos_rtn1_rt in Hsb.
  eapply rt_trans; [exact IH|]. apply rt_step.
  destruct Hbc as (e & He & Hends). exists e. split; [|exact Hends].
  cbn [subgraph edges]. apply filter_In. split; [exact He|].
  assert (In b C) as Hb by now apply HC.
  assert (In c C) as Hc'.
  { apply HC. eapply rt_trans; [exact Hsb|]. apply rt_step. now exists e. }
  apply andb_true_iff.
  destruct Hends as [[-> ->]|[-> ->]]; split; now apply mem_In.
Qed.

(** X7: the subgraph the loop keeps is weakly connected by its own edges:
    any two of its nodes are joined by a path that stays inside it. *)
Theorem reduced_subgraph_connected (G : MultiDiGraph) (tract : Tract) (a b : Z) :
  well_formed G ->
  In a (node_ids (reduced_subgraph G tract)) ->
  In b (node_ids (reduced_subgraph G tract)) ->
  wconn (reduced_subgraph G tract) a b.
Proof.
  intros Hwf. unfold reduced_subgraph.
  set (sub := subgraph G (map osmid (nodes_within_tract G tract))).
  assert (well_formed sub) as Hsub by now apply subgraph_well_formed.
  destruct (Nat.ltb_spec 0 (number_of_nodes sub)) as [Hpos|Hzero].
  - destruct (largest_cc_nodes_spec sub Hsub Hpos)
      as (C & sC & HC & HsC & EC & _ & _).
    rewrite HC. intros Ha Hb.
    pose proof (plain_bfs_component sub sC Hsub HsC) as Hcomp.
    rewrite <- EC in Hcomp.
    apply subgraph_node_ids in Ha, Hb.
    destruct Ha as [_ Ha], Hb as [_ Hb].
    eapply rt_trans.
    + apply wconn_sym.
      apply (component_connected_inside sub sC C Hcomp), Hcomp, Ha.
    + apply (component_connected_inside sub sC C Hcomp), Hcomp, Hb.
  - intros Ha _. exfalso. unfold number_of_nodes, node_ids in *.
    destruct (nodes sub); [destruct Ha|cbn in Hzero; lia].
Qed.

Lemma reduced_subgraph_connected_witness :
  wconn (reduced_subgraph Examples.two_triangles Examples.square_tract) 1 3.
Proof.
  apply (reduced_subgraph_connected Examples.two_triangles
           Examples.square_tract 1 3).
  - exact two_triangles_well_formed.
  - vm_compute. tauto.
  - vm_compute. tauto.
Defined.

(** X8: the reduced subgraph keeps every street of the kept component and
    only streets of the tract: an edge of the induced subgraph with an end
    in the reduced subgraph is an edge of the reduced subgraph, and every
    edge of the reduced subgraph is an edge of [G] between two nodes that
    are within the tract polygon. *)
Theorem reduced_subgraph_edges (G : MultiDiGraph) (tract : Tract) (e : Edge) :
  well_formed G ->
  let sub := subgraph G (map osmid (nodes_within_tract G tract)) in
  let red := reduced_subgraph G tract in
  (In e (edges sub) ->
   In (e_u e) (node_ids red) \/ In (e_v e) (node_ids red) ->
   In e (edges red))
  /\ (In e (edges red) ->
      In e (edges G)
      /\ (exists n, In n (nodes_within_tract G tract) /\ osmid n = e_u e)
      /\ (exists n, In n (nodes_within_tract G tract) /\ osmid n = e_v e)).
Proof.
  intros Hwf sub red.
  assert (well_formed sub) as Hsub by now apply subgraph_well_formed.
  assert (forall e', In e' (edges sub) ->
            In e' (edges G)
            /\ (exists n, In n (nodes_within_tract G tract) /\ osmid n = e_u e')
            /\ (exists n, In n (nodes_within_tract G tract) /\ osmid n = e_v e'))
    as Hsubedge.
  { intros e' He'. cbn [sub subgraph edges] in He'. apply filter_In in He'.
    destruct He' as [He' Hm]. apply andb_true_iff in Hm.
    destruct Hm as [Hu Hv]. apply mem_In, in_map_iff in Hu, Hv.
    destruct Hu as (nu & Eu & Hnu), Hv as (nv & Ev & Hnv).
    split; [exact He'|]. split; [now exists nu|now exists nv]. }
  subst red. unfold reduced_subgraph. fold sub.
  destruct (Nat.ltb_spec 0 (number_of_nodes sub)) as [Hpos|Hzero].
  - destruct (largest_cc_nodes_spec sub Hsub Hpos)
      as (C & sC & HC & HsC & EC & _ & _).
    rewrite HC.
    pose proof (plain_bfs_component sub sC Hsub HsC) as Hcomp.
    rewrite <- EC in Hcomp. destruct Hcomp as [_ Hcomp]. split.
    + intros He Hend. cbn [subgraph edges]. apply filter_In.
      split; [exact He|].
      assert (adj sub (e_u e) (e_v e)) as Hadj by (exists e; auto).
      assert (In (e_u e) C /\ In (e_v e) C) as [Hu Hv].
      { destruct Hend as [Hend|Hend]; apply subgraph_node_ids in Hend;
          destruct Hend as [_ Hend]; split; try assumption; apply Hcomp.
        - eapply rt_trans; [apply Hcomp, Hend|now apply rt_step].
        - eapply rt_trans; [apply Hcomp, Hend|apply rt_step, adj_sym, Hadj]. }
      apply andb_true_iff. split; now apply mem_In.
    + intro He. cbn [subgraph edges] in He. apply filter_In in He.
      apply Hsubedge, He.
  - split; [auto|]. apply Hsubedge.
Qed.

Lemma reduced_subgraph_edges_witness :
  let G := Examples.two_triangles in
  let tract := Examples.square_tract in
  let e := Examples.street 1 2 in
  let sub := subgraph G (map osmid (nodes_within_tract G tract)) in
  let red := reduced_subgraph G tract in
  (In e (edges sub) ->
   In (e_u e) (node_ids red) \/ In (e_v e) (node_ids red) ->
   In e (edges red))
  /\ (In e (edges red) ->
      In e (edges G)
      /\ (exists n, In n (nodes_within_tract G tract) /\ osmid n = e_u e)
      /\ (exists n, In n (nodes_within_tract G tract) /\ osmid n = e_v e)).
Proof.
  apply (reduced_subgraph_edges Examples.two_triangles Examples.square_tract
           (Examples.street 1 2)).
  exact two_triangles_well_formed.
Defined.

End ComponentMoreFacts.

(** ** The tables around the loop *)

Section TableFacts.
Import Geometry Network Tables.

Lemma matching_In {R : Type} (key : R -> string) (g : string)
                  (right : list R) (r : R) :
  In r (matching key g right) <-> In r right /\ key r = g.
Proof.
  unfold matching. rewrite filter_In, String.eqb_eq. reflexivity.
Qed.

Lemma merge_left_In {L R : Type} (key_l : L -> string) (key_r : R -> string)
                    (left : list L) (right : list R) (l : L) (o : option R) :
  In (l, o) (merge_left key_l key_r left right) ->
  In l left
  /\ match o with
     | Some r => In r right /\ key_r r = key_l l
     | None => forall r, In r right -> key_r r <> key_l l
     end.
Proof.
  unfold merge_left. rewrite in_flat_map. intros (l' & Hl' & H).
  destruct (matching key_r (key_l l') right) as [|m ms] eqn:E.
  - destruct H as [H|[]]. injection H as <- <-. split; [exact Hl'|].
    intros r Hr Hk.
    assert (In r (matching key_r (key_l l') right)) as Hin
      by (apply matching_In; auto).
    rewrite E in Hin. destruct Hin.
  - apply in_map_iff in H. destruct H as (r & Hr & Hin).
    injection Hr as <- <-. split; [exact Hl'|].
    rewrite <- E in Hin. now apply matching_In in Hin.
Qed.

(** X9: the income a tract enters the loop with is never the Census
    sentinel -666666666; when it is a number, it is the income of a 2022
    row of the income file with the tract's GEOID. *)
Theorem tract_income_origin (tracts_gdf : list Shape)
                            (income_df : list IncomeRow)
                            (t : Tract) (q : Q) :
  In t (tracts_with_income_gdf tracts_gdf income_df) ->
  Median_Household_Income t = Some q ->
  ~ (q == -666666666)%Q
  /\ exists r, In r income_df /\ Year r = 2022%Z /\ i_GEOID r = GEOID t
               /\ i_Median_Household_Income r = Some q.
Proof.
  unfold tracts_with_income_gdf. rewrite in_map_iff.
  intros ([sh o] & <- & Hin) Hq. cbn [fst snd GEOID Median_Household_Income] in *.
  apply merge_left_In in Hin. destruct Hin as [_ Ho].
  destruct o as [r|]; [|discriminate Hq].
  destruct Ho as [Hr Hk]. unfold income_2022_df in Hr.
  apply filter_In in Hr. destruct Hr as [Hr Hy]. apply Z.eqb_eq in Hy.
  unfold replace_sentinel in Hq.
  destruct (i_Median_Household_Income r) as [v|] eqn:Ev; [|discriminate Hq].
  destruct (Qeq_bool v (-666666666)) eqn:Es; [discriminate Hq|].
  injection Hq as <-. split; [now apply Qeq_bool_neq|].
  exists r. auto.
Qed.

Lemma tract_income_origin_witness :
  let shapes := [ {| s_GEOID := "11001000100"; s_geometry := Examples.square |} ] in
  let incomes :=
    [ {| i_GEOID := "11001000100"; Year := 2021;
         i_Median_Household_Income := Some (-666666666)%Q |};
      {| i_GEOID := "11001000100"; Year := 2022;
         i_Median_Household_Income := Some 90000%Q |} ] in
  let t := {| GEOID := "11001000100"; geometry := Examples.square;
              Median_Household_Income := Some 90000%Q |} in
  ~ (90000 == -666666666)%Q
  /\ exists r, In r incomes /\ Year r = 2022%Z /\ i_GEOID r = GEOID t
               /\ i_Median_Household_Income r = Some 90000%Q.
Proof.
  apply (tract_income_origin
           [ {| s_GEOID := "11001000100"; s_geometry := Examples.square |} ]).
  - cbn. now left.
  - reflexivity.
Defined.

Lemma matching_none {L R : Type} (key_l : L -> string) (key_r : R -> string)
                    (f : L -> R) (g : string) (left : list L) :
  (forall l, key_r (f l) = key_l l) ->
  ~ In g (map key_l left) -> matching key_r g (map f left) = [].
Proof.
  intros Hk. induction left as [|a left IH]; intro Hn; [reflexivity|].
  cbn [map matching filter]. rewrite Hk.
  destruct (String.eqb_spec (key_l a) g) as [E|_].
  - exfalso. apply Hn. now left.
  - apply IH. intro H. apply Hn. now right.
Qed.

Lemma matching_own {L R : Type} (key_l : L -> string) (key_r : R -> string)
                   (f : L -> R) (left : list L) :
  (forall l, key_r (f l) = key_l l) ->
  NoDup (map key_l left) ->
  forall l, In l left -> matching key_r (key_l l) (map f left) = [f l].
Proof.
  intros Hk. induction left as [|a left IH]; intros Hnd l Hl; [destruct Hl|].
  cbn [map] in Hnd. apply NoDup_cons_iff in Hnd. destruct Hnd as [Hn Hnd].
  cbn [map matching filter]. rewrite Hk. destruct Hl as [->|Hl].
  - rewrite String.eqb_refl. f_equal.
    now apply (matching_none key_l key_r f (key_l l) left Hk).
  - destruct (String.eqb_spec (key_l a) (key_l l)) as [E|_].
    + exfalso. apply Hn. rewrite E. now apply in_map.
    + now apply IH.
Qed.

(** Merging a table with a table computed row by row from it, on a key
    without duplicates, pairs every row with its own result. *)
Lemma merge_left_own {L R : Type} (key_l : L -> string) (key_r : R -> string)
                     (f : L -> R) (left : list L) :
  (forall l, key_r (f l) = key_l l) ->
  NoDup (map key_l left) ->
  merge_left key_l key_r left (map f left)
  = map (fun l => (l, Some (f l))) left.
Proof.
  intros Hk Hnd. unfold merge_left.
  assert (forall part, incl part left ->
            flat_map
              (fun l =>
                 match matching key_r (key_l l) (map f left) with
                 | [] => [(l, None)]
                 | ms => map (fun r => (l, Some r)) ms
                 end) part
            = map (fun l => (l, Some (f l))) part) as H.
  { induction part as [|a part IH]; intro Hin; [reflexivity|].
    cbn [flat_map map].
    rewrite (matching_own key_l key_r f left Hk Hnd a (Hin a (or_introl eq_refl))).
    cbn [map app]. f_equal. apply IH. intros b Hb. apply Hin. now right. }
  apply H, incl_refl.
Qed.

Section LoopTables.

Variable global_efficiency : Graph -> attempt Q.
Variable average_clustering : Graph -> attempt Q.
Variable degree_assortativity_coefficient : MultiDiGraph -> attempt Q.
Variable edge_betweenness_centrality : MultiDiGraph -> attempt (list Q).

Let process := process_tract global_efficiency average_clustering
                 degree_assortativity_coefficient edge_betweenness_centrality.
Let output := final_output_df global_efficiency average_clustering
                degree_assortativity_coefficient edge_betweenness_centrality.

Lemma process_tract_geoid (G : MultiDiGraph) (t : Tract) :
  row_geoid (process G t) = GEOID t.
Proof.
  subst process. unfold process_tract.
  destruct (_ <? 3)%nat; [reflexivity|].
  destruct (_ || _); reflexivity.
Qed.

Lemma final_output_df_shape (G : MultiDiGraph) (tracts : list Tract) :
  NoDup (map GEOID tracts) ->
  (existsb (fun t => is_metrics_row (process G t)) tracts = true ->
   output G tracts
   = Some (map (fun t =>
                  {| o_GEOID := GEOID t;
                     o_Median_Household_Income := Median_Household_Income t;
                     o_metrics := metric_columns (process G t) |})
               tracts))
  /\ (existsb (fun t => is_metrics_row (process G t)) tracts = false ->
      output G tracts = None).
Proof.
  intro Hnd. subst output. unfold final_output_df, results. fold process.
  assert (existsb is_metrics_row (map (process G) tracts)
          = existsb (fun t => is_metrics_row (process G t)) tracts) as ->.
  { induction tracts as [|a l IH]; [reflexivity|].
    cbn [map existsb]. f_equal. apply IH. cbn [map] in Hnd.
    now apply NoDup_cons_iff in Hnd. }
  split; intros ->; [|reflexivity].
  rewrite (merge_left_own GEOID row_geoid (process G) tracts
             (process_tract_geoid G) Hnd).
  rewrite map_map. reflexivity.
Qed.

(** X10: when the GEOIDs of the tracts are distinct and at least one
    tract reaches the metrics, the output table has one row per tract, in
    the order of the tracts, with the tract's income and the metric
    columns of the tract's own row; when no tract reaches the metrics no
    table is produced. *)
Theorem final_output_df_rows (G : MultiDiGraph) (tracts : list Tract) :
  NoDup (map GEOID tracts) ->
  (existsb (fun t => is_metrics_row (process G t)) tracts = true ->
   output G tracts
   = Some (map (fun t =>
                  {| o_GEOID := GEOID t;
                     o_Median_Household_Income := Median_Household_Income t;
                     o_metrics := metric_columns (process G t) |})
               tracts))
  /\ (existsb (fun t => is_metrics_row (process G t)) tracts = false ->
      output G tracts = None).
Proof. exact (final_output_df_shape G tracts). Qed.

Lemma complete_row_geoid (r : Index.Row) (c : Index.Complete) :
  Index.complete_row r = Some c -> Index.geoid c = Index.GEOID r.
Proof.
  unfold Index.complete_row.
  destruct (Index.Median_Household_Income r), (Index.global_permeability r),
           (Index.avg_clustering_coeff r), (Index.degree_assortativity r),
           (Index.gini_edge_betweenness r); try discriminate.
  intro H. injection H as <-. reflexivity.
Qed.

(** X11: from the loop to the index.  With distinct GEOIDs, a tract whose
    status is not [ok], or whose income is missing, has no row in the
    final table of DC_TRVI_Spatial_Analysis.py: it gets no TRVI. *)
Theorem tract_without_metrics_gets_no_TRVI
          (G : MultiDiGraph) (tracts : list Tract) (out : list OutputRow)
          (t : Tract) :
  NoDup (map GEOID tracts) ->
  output G tracts = Some out ->
  In t tracts ->
  status (process G t) <> ok \/ Median_Household_Income t = None ->
  Forall (fun cv => Index.geoid (fst cv) <> GEOID t)
         (Index.df_final (map read_csv_row out)).
Proof.
  intros Hnd Hout Ht Hbad. apply Forall_forall. intros [c v] Hin Hgeo.
  cbn [fst] in Hgeo.
  destruct (final_output_df_shape G tracts Hnd) as [Hsome Hnone].
  destruct (existsb (fun t0 => is_metrics_row (process G t0)) tracts) eqn:E;
    [|rewrite Hnone in Hout by reflexivity; discriminate].
  rewrite Hsome in Hout by reflexivity. injection Hout as <-.
  apply df_final_rows, df_clean_origin in Hin.
  destruct Hin as (r & Hr & Hc). rewrite map_map in Hr.
  apply in_map_iff in Hr. destruct Hr as (t' & <- & Ht').
  pose proof (complete_row_geoid _ _ Hc) as Hg. cbn in Hg.
  rewrite Hgeo in Hg.
  assert (t = t') as <- by (eapply NoDup_map_eq; eassumption).
  unfold Index.complete_row, read_csv_row in Hc. cbn in Hc.
  destruct Hbad as [Hst|Hinc].
  - destruct (process G t) as [g e|g m]; [|exfalso; now apply Hst].
    cbn in Hc. destruct (option_map Q2R (Median_Household_Income t));
      discriminate.
  - rewrite Hinc in Hc. discriminate.
Qed.

End LoopTables.

Lemma final_output_df_rows_witness :
  let ge := fun _ : Graph => @Returns Q 1%Q in
  let da := fun _ : MultiDiGraph => @Raises Q in
  let eb := fun _ : MultiDiGraph => Returns [1; 2; 3]%Q in
  let G := Examples.two_triangles in
  let tracts := [Examples.square_tract] in
  (existsb (fun t => is_metrics_row (process_tract ge ge da eb G t)) tracts
   = true ->
   final_output_df ge ge da eb G tracts
   = Some (map (fun t =>
                  {| o_GEOID := GEOID t;
                     o_Median_Household_Income := Median_Household_Income t;
                     o_metrics := metric_columns (process_tract ge ge da eb G t) |})
               tracts))
  /\ (existsb (fun t => is_metrics_row (process_tract ge ge da eb G t)) tracts
      = false ->
      final_output_df ge ge da eb G tracts = None).
Proof.
  apply (final_output_df_rows (fun _ => Returns 1%Q) (fun _ => Returns 1%Q)
           (fun _ => Raises) (fun _ => Returns [1; 2; 3]%Q)
           Examples.two_triangles [Examples.square_tract]).
  cbn. repeat constructor. intros [].
Defined.

Lemma tract_without_metrics_gets_no_TRVI_witness :
  let ge := fun _ : Graph => @Returns Q 1%Q in
  let da := fun _ : MultiDiGraph => @Raises Q in
  let eb := fun _ : MultiDiGraph => Returns [1; 2; 3]%Q in
  let G := Examples.two_triangles in
  let t := Examples.square_tract in
  exists out,
    final_output_df ge ge da eb G [t] = Some out
    /\ Forall (fun cv => Index.geoid (fst cv) <> GEOID t)
              (Index.df_final (map read_csv_row out)).
Proof.
  eexists. split; [vm_compute; reflexivity|].
  eapply (tract_without_metrics_gets_no_TRVI
            (fun _ => Returns 1%Q) (fun _ => Returns 1%Q)
            (fun _ => Raises) (fun _ => Returns [1; 2; 3]%Q)
            Examples.two_triangles [Examples.square_tract]).
  - cbn. repeat constructor. intros [].
  - vm_compute. reflexivity.
  - now left.
  - right. reflexivity.
Defined.

Lemma matching_at_most_one {R : Type} (key : R -> string) (g : string)
                           (right : list R) :
  NoDup (map key right) ->
  matching key g right = [] \/ exists r, matching key g right = [r].
Proof.
  induction right as [|a right IH]; intro Hnd; [now left|].
  cbn [map] in Hnd. apply NoDup_cons_iff in Hnd. destruct Hnd as [Hn Hnd].
  cbn [matching filter]. destruct (String.eqb_spec (key a) g) as [E|_].
  - right. exists a. f_equal.
    destruct (filter (fun r => String.eqb (key r) g) right) as [|b l] eqn:F;
      [reflexivity|].
    exfalso. apply Hn.
    assert (In b (matching key g right)) as Hb by (unfold matching; rewrite F; now left).
    apply matching_In in Hb. destruct Hb as [Hb <-]. rewrite E.
    now apply in_map.
  - now apply IH.
Qed.

Lemma merge_left_fst {L R : Type} (key_l : L -> string) (key_r : R -> string)
                     (left : list L) (right : list R) :
  NoDup (map key_r right) ->
  map fst (merge_left key_l key_r left right) = left.
Proof.
  intro Hnd. unfold merge_left.
  induction left as [|l left IH]; [reflexivity|].
  cbn [flat_map]. rewrite map_app, IH. 
  destruct (matching_at_most_one key_r (key_l l) right Hnd) as [->|[r ->]];
    reflexivity.
Qed.

(** X12: when no GEOID occurs twice among the 2022 income rows, the left
    merge neither drops nor repeats a tract: the tracts enter the loop
    with the GEOIDs and polygons of the shapefile, in its order. *)
Theorem tracts_with_income_gdf_keeps_shapes (tracts_gdf : list Shape)
                                            (income_df : list IncomeRow) :
  NoDup (map i_GEOID (income_2022_df income_df)) ->
  map GEOID (tracts_with_income_gdf tracts_gdf income_df)
  = map s_GEOID tracts_gdf
  /\ map geometry (tracts_with_income_gdf tracts_gdf income_df)
     = map s_geometry tracts_gdf.
Proof.
  intro Hnd. unfold tracts_with_income_gdf. rewrite !map_map. cbn [GEOID geometry].
  rewrite <- (merge_left_fst s_GEOID i_GEOID tracts_gdf
                (income_2022_df income_df) Hnd) at 2 4.
  rewrite !map_map. split; reflexivity.
Qed.

Lemma tracts_with_income_gdf_keeps_shapes_witness :
  let shapes := [ {| s_GEOID := "11001000100"; s_geometry := Examples.square |};
                  {| s_GEOID := "11001000201"; s_geometry := [] |} ] in
  let incomes :=
    [ {| i_GEOID := "11001000100"; Year := 2021;
         i_Median_Household_Income := Some 80000%Q |};
      {| i_GEOID := "11001000100"; Year := 2022;
         i_Median_Household_Income := Some 90000%Q |} ] in
  map GEOID (tracts_with_income_gdf shapes incomes) = map s_GEOID shapes
  /\ map geometry (tracts_with_income_gdf shapes incomes)
     = map s_geometry shapes.
Proof.
  apply tracts_with_income_gdf_keeps_shapes.
  cbn. repeat constructor. intros [].
Defined.

End TableFacts.

(** ** Entropy weights and the physical index: more *)

Section WeightMoreFacts.
Import Index.
Local Open Scope R_scope.

(** The weights of a table of at least two rows, written out. *)
Lemma weights_ewm_formula (rows : list Complete) :
  (2 <= length rows)%nat ->
  let P := df_processed rows in
  let k := 1 / ln (INR (length rows)) in
  let d1 := diversification k (p_permeability P) in
  let d2 := diversification k (p_clustering P) in
  let d3 := diversification k (p_assortativity P) in
  let d4 := diversification k (p_gini P) in
  0 < k /\ 0 < d1 /\ 0 <= d2 /\ 0 <= d3 /\ 0 <= d4
  /\ weights_ewm rows
     = Some {| w_permeability := d1 / (d1 + d2 + d3 + d4);
               w_clustering := d2 / (d1 + d2 + d3 + d4);
               w_assortativity := d3 / (d1 + d2 + d3 + d4);
               w_gini := d4 / (d1 + d2 + d3 + d4) |}.
Proof.
  intro Hm. cbv zeta.
  assert (rows <> []) as Hne by (destruct rows; [cbn in Hm; lia|discriminate]).
  destruct (processed_columns rows Hne)
    as ((L1 & N1 & Z1) & (L2 & N2) & (L3 & N3) & (L4 & N4)).
  pose proof (ln_INR_pos _ Hm) as Hln.
  assert (weights_ewm rows
          = match div 1 (ln (INR (length rows))) with
            | None => None
            | Some k =>
                let P := df_processed rows in
                let d1 := diversification k (p_permeability P) in
                let d2 := diversification k (p_clustering P) in
                let d3 := diversification k (p_assortativity P) in
                let d4 := diversification k (p_gini P) in
                let dsum := d1 + d2 + d3 + d4 in
                match div d1 dsum, div d2 dsum, div d3 dsum, div d4 dsum with
                | Some w1, Some w2, Some w3, Some w4 =>
                    Some {| w_permeability := w1; w_clustering := w2;
                            w_assortativity := w3; w_gini := w4 |}
                | _, _, _, _ => None
                end
            end) as ->.
  { unfold weights_ewm. destruct rows; [congruence|reflexivity]. }
  set (P := df_processed rows) in *.
  set (k := 1 / ln (INR (length rows))).
  assert (0 < k) as Hk by (apply Rdiv_lt_0_compat; lra).
  destruct (diversification_bounds (p_permeability P)) as [_ H1];
    [lia|assumption|].
  destruct (diversification_bounds (p_clustering P)) as [H2 _];
    [lia|assumption|].
  destruct (diversification_bounds (p_assortativity P)) as [H3 _];
    [lia|assumption|].
  destruct (diversification_bounds (p_gini P)) as [H4 _];
    [lia|assumption|].
  rewrite L1 in H1. rewrite L2 in H2. rewrite L3 in H3. rewrite L4 in H4.
  specialize (H1 Z1). fold k in H1, H2, H3, H4.
  repeat (split; [assumption|]).
  rewrite div_defined by lra. fold k. cbv zeta.
  rewrite !div_defined by lra. reflexivity.
Qed.

Lemma weighted_rows_unit (w : Weights) (a : list R) :
  0 <= w_permeability w -> 0 <= w_clustering w ->
  0 <= w_assortativity w -> 0 <= w_gini w ->
  w_permeability w + w_clustering w + w_assortativity w + w_gini w = 1 ->
  forall b c d,
    length b = length a -> length c = length a -> length d = length a ->
    Forall unit_interval a -> Forall unit_interval b ->
    Forall unit_interval c -> Forall unit_interval d ->
    length (weighted_rows w a b c d) = length a
    /\ Forall unit_interval (weighted_rows w a b c d).
Proof.
  intros W1 W2 W3 W4 Ws.
  induction a as [|x1 a IH]; intros b c d Lb Lc Ld Ha Hb Hc Hd.
  - split; [reflexivity|constructor].
  - destruct b as [|x2 b]; [discriminate|].
    destruct c as [|x3 c]; [discriminate|].
    destruct d as [|x4 d]; [discriminate|].
    inversion Ha as [|? ? [A0 A1] Ha']; subst.
    inversion Hb as [|? ? [B0 B1] Hb']; subst.
    inversion Hc as [|? ? [C0 C1] Hc']; subst.
    inversion Hd as [|? ? [D0 D1] Hd']; subst.
    cbn [length] in *.
    destruct (IH b c d) as [IL IU]; try assumption; try lia.
    cbn [weighted_rows length]. split; [now rewrite IL|].
    constructor; [|exact IU]. unfold unit_interval. split; nra.
Qed.

Lemma processed_unit (rows : list Complete) :
  let P := df_processed rows in
  Forall unit_interval (p_permeability P)
  /\ Forall unit_interval (p_clustering P)
  /\ Forall unit_interval (p_assortativity P)
  /\ Forall unit_interval (p_gini P).
Proof.
  cbv zeta. unfold df_processed.
  cbn [p_permeability p_clustering p_assortativity p_gini].
  repeat split; first [apply minmax_unit | apply flip_unit, minmax_unit].
Qed.

Lemma UTRI_physical_bounds (rows : list Complete) :
  (2 <= length rows)%nat ->
  exists physical,
    UTRI_physical rows = Some physical
    /\ length physical = length rows
    /\ Forall unit_interval physical.
Proof.
  intro Hm.
  destruct (weights_ewm_formula rows Hm) as (Hk & H1 & H2 & H3 & H4 & Hw).
  cbv zeta in *. unfold UTRI_physical. rewrite Hw.
  eexists. split; [reflexivity|].
  assert (rows <> []) as Hne by (destruct rows; [cbn in Hm; lia|discriminate]).
  destruct (processed_columns rows Hne)
    as ((L1 & _ & _) & (L2 & _) & (L3 & _) & (L4 & _)).
  destruct (processed_unit rows) as (U1 & U2 & U3 & U4).
  set (P := df_processed rows) in *.
  set (k := 1 / ln (INR (length rows))) in *.
  set (d1 := diversification k (p_permeability P)) in *.
  set (d2 := diversification k (p_clustering P)) in *.
  set (d3 := diversification k (p_assortativity P)) in *.
  set (d4 := diversification k (p_gini P)) in *.
  assert (0 < / (d1 + d2 + d3 + d4)) as Hi by (apply Rinv_0_lt_compat; lra).
  rewrite <- L1 at 1.
  apply weighted_rows_unit;
    cbn [w_permeability w_clustering w_assortativity w_gini];
    try assumption; try lia;
    try (unfold Rdiv; apply Rmult_le_pos; lra).
  field. lra.
Qed.

Lemma UTRI_physical_defined (rows : list Complete) :
  (2 <= length rows)%nat ->
  exists physical,
    UTRI_physical rows = Some physical /\ length physical = length rows.
Proof.
  intro Hm. destruct (UTRI_physical_bounds rows Hm) as (phys & H & Hl & _).
  now exists phys.
Qed.

(** X13: for a table of at least two rows the physical index is a number
    for every row and lies between 0 and 1. *)
Theorem UTRI_physical_unit_interval (rows : list Complete) :
  (2 <= length rows)%nat ->
  exists physical,
    UTRI_physical rows = Some physical
    /\ length physical = length rows
    /\ Forall unit_interval physical.
Proof. exact (UTRI_physical_bounds rows). Qed.

Lemma UTRI_physical_unit_interval_witness :
  exists physical,
    UTRI_physical Examples.two_rows = Some physical
    /\ length physical = length Examples.two_rows
    /\ Forall unit_interval physical.
Proof.
  apply (UTRI_physical_unit_interval Examples.two_rows). cbn. lia.
Defined.

Lemma sum_all_equal (c : R) (col : list R) :
  Forall (eq c) col -> sum col = INR (length col) * c.
Proof.
  induction 1 as [|v t Hv _ IH].
  - cbn. lra.
  - cbn [sum length]. rewrite S_INR, IH, <- Hv. lra.
Qed.

Lemma sum_map_all_equal (f : R -> R) (c : R) (col : list R) :
  Forall (eq c) col -> sum (map f col) = INR (length col) * f c.
Proof.
  induction 1 as [|v t Hv _ IH].
  - cbn. lra.
  - cbn [map sum length]. rewrite S_INR, IH, <- Hv. lra.
Qed.

Lemma minmax_constant (c : R) (col : list R) :
  Forall (eq c) col -> Forall (eq 0) (minmax col).
Proof.
  intro H. destruct col as [|x0 xs]; [constructor|]. unfold minmax.
  apply Forall_map. rewrite Forall_forall in *. intros x Hx.
  rewrite <- (H _ (col_min_In x0 xs)), <- (H x Hx).
  unfold Rdiv. rewrite Rminus_diag. now rewrite Rmult_0_l.
Qed.

Lemma diversification_zeros (k : R) (col : list R) :
  Forall (eq 0) col -> diversification k col = 1.
Proof.
  intro H. unfold diversification, entropy_sum.
  rewrite (sum_all_equal 0 col H), Rmult_0_r.
  destruct (Req_dec_T 0 0) as [_|E]; [lra|congruence].
Qed.

Lemma element_le_sum (col : list R) (v : R) :
  Forall (Rle 0) col -> In v col -> v <= sum col.
Proof.
  induction 1 as [|a t Ha Ht IH]; intro Hv; [destruct Hv|].
  cbn [sum]. pose proof (sum_nonneg_R t Ht). destruct Hv as [->|Hv].
  - lra.
  - specialize (IH Hv). lra.
Qed.

Lemma diversification_le_1 (k : R) (col : list R) :
  0 <= k -> Forall (Rle 0) col -> diversification k col <= 1.
Proof.
  intros Hk Hcol. unfold diversification, entropy_sum.
  destruct (Req_dec_T (sum col) 0) as [_|E]; [lra|].
  assert (0 < sum col) as Hs by (pose proof (sum_nonneg_R col Hcol); lra).
  assert (sum (map (fun v => p_log_p (v / sum col)) col) <= 0) as Hes.
  { assert (forall part, incl part col ->
              sum (map (fun v => p_log_p (v / sum col)) part) <= 0) as H.
    { induction part as [|v part IH]; intro Hin; [cbn; lra|].
      cbn [map sum].
      assert (sum (map (fun v0 => p_log_p (v0 / sum col)) part) <= 0) as IH'.
      { apply IH. intros a Ha. apply Hin. now right. }
      assert (In v col) as Hv by (apply Hin; now left).
      pose proof (element_le_sum col v Hcol Hv) as Hle.
      rewrite Forall_forall in Hcol. pose proof (Hcol v Hv) as H0.
      assert (p_log_p (v / sum col) <= 0) as Hterm; [|lra].
      unfold p_log_p. destruct (Req_dec_T (v / sum col) 0) as [_|Hne]; [lra|].
      assert (0 < v / sum col) as Hp.
      { assert (0 <= v / sum col) by (apply Rmult_le_pos;
          [lra|apply Rlt_le, Rinv_0_lt_compat; lra]). lra. }
      assert (v / sum col <= 1) as Hp1.
      { apply Rmult_le_reg_r with (sum col); [lra|].
        unfold Rdiv. rewrite Rmult_assoc, Rinv_l by lra. lra. }
      pose proof (ln_le_minus_1 _ Hp). nra. }
    apply H, incl_refl. }
  nra.
Qed.

Lemma constant_column (f : Complete -> R) (rows : list Complete) :
  (forall r r', In r rows -> In r' rows -> f r = f r') ->
  exists c, Forall (eq c) (map f rows).
Proof.
  intro H. destruct rows as [|r0 rest]; [exists 0; constructor|].
  exists (f r0). apply Forall_map, Forall_forall. intros r Hr.
  apply H; [now left|exact Hr].
Qed.

(** X15: in a table of at least two rows, a global-permeability column
    whose values are all equal does not get the weight 0: its
    diversification is 1, the largest possible, so its weight is at least
    each of the other three. *)
Theorem constant_permeability_weight_largest (rows : list Complete) :
  (2 <= length rows)%nat ->
  (forall r r', In r rows -> In r' rows -> permeability r = permeability r') ->
  exists w,
    weights_ewm rows = Some w
    /\ 0 < w_permeability w
    /\ w_clustering w <= w_permeability w
    /\ w_assortativity w <= w_permeability w
    /\ w_gini w <= w_permeability w.
Proof.
  intros Hm Hconst.
  destruct (weights_ewm_formula rows Hm) as (Hk & H1 & H2 & H3 & H4 & Hw).
  cbv zeta in *. rewrite Hw. eexists. split; [reflexivity|].
  cbn [w_permeability w_clustering w_assortativity w_gini].
  destruct (processed_unit rows) as (_ & U2 & U3 & U4). cbv zeta in *.
  destruct (constant_column permeability rows Hconst) as [c Hc].
  set (k := 1 / ln (INR (length rows))) in *.
  assert (diversification k (p_permeability (df_processed rows)) = 1) as E1.
  { unfold df_processed. cbn [p_permeability].
    apply diversification_zeros, (minmax_constant c), Hc. }
  pose proof (diversification_le_1 k _ (Rlt_le _ _ Hk) (unit_nonneg _ U2)) as D2.
  pose proof (diversification_le_1 k _ (Rlt_le _ _ Hk) (unit_nonneg _ U3)) as D3.
  pose proof (diversification_le_1 k _ (Rlt_le _ _ Hk) (unit_nonneg _ U4)) as D4.
  rewrite E1 in *.
  set (d2 := diversification k (p_clustering (df_processed rows))) in *.
  set (d3 := diversification k (p_assortativity (df_processed rows))) in *.
  set (d4 := diversification k (p_gini (df_processed rows))) in *.
  assert (0 < / (1 + d2 + d3 + d4)) as Hi by (apply Rinv_0_lt_compat; lra).
  unfold Rdiv. repeat split; nra.
Qed.

Lemma constant_permeability_weight_largest_witness :
  let rows :=
    [ {| geoid := "11001000100"; MHI := 50000; permeability := 1;
         clustering := 2; assortativity := 3; gini := 4 |};
      {| geoid := "11001000201"; MHI := 90000; permeability := 1;
         clustering := 3; assortativity := 1; gini := 5 |} ] in
  exists w,
    weights_ewm rows = Some w
    /\ 0 < w_permeability w
    /\ w_clustering w <= w_permeability w
    /\ w_assortativity w <= w_permeability w
    /\ w_gini w <= w_permeability w.
Proof.
  apply constant_permeability_weight_largest.
  - cbn. lia.
  - cbn. intros r r' [<-|[<-|[]]] [<-|[<-|[]]]; reflexivity.
Defined.

End WeightMoreFacts.

(** ** TRVI: more *)

Section TRVIMoreFacts.
Import Index.
Local Open Scope R_scope.

Lemma sum_map_centered (mu s : R) (col : list R) :
  sum (map (fun x => (x - mu) / s) col) = (sum col - INR (length col) * mu) / s.
Proof.
  induction col as [|x col IH].
  - cbn. unfold Rdiv. lra.
  - cbn [map sum length]. rewrite S_INR, IH. unfold Rdiv. lra.
Qed.

(** A standardised column sums to 0. *)
Lemma zscore_sum (col : list R) : sum (zscore col) = 0.
Proof.
  unfold zscore. rewrite sum_map_centered. unfold mean.
  destruct col as [|x col].
  - cbn. unfold Rdiv. lra.
  - assert (INR (length (x :: col)) <> 0) as Hn.
    { apply not_0_INR. discriminate. }
    assert (INR (length (x :: col)) * (sum (x :: col) / INR (length (x :: col)))
            = sum (x :: col)) as -> by (field; exact Hn).
    unfold Rdiv. rewrite Rminus_diag. apply Rmult_0_l.
Qed.

Lemma combine_TRVI_sum (a : list R) :
  forall b, length a = length b ->
            sum (combine_TRVI a b) = - sum a - sum b.
Proof.
  induction a as [|x a IH]; intros [|y b] Hlen; try discriminate.
  - cbn. lra.
  - cbn [combine_TRVI sum]. rewrite IH by (cbn in Hlen; lia). lra.
Qed.

Lemma combine_TRVI_length (a : list R) :
  forall b, length a = length b -> length (combine_TRVI a b) = length a.
Proof.
  induction a as [|x a IH]; intros [|y b] Hlen; try discriminate.
  - reflexivity.
  - cbn [combine_TRVI length]. f_equal. apply IH. cbn in Hlen. lia.
Qed.

Lemma TRVI_sum_and_length (income physical : list R) :
  length income = length physical ->
  sum (TRVI income physical) = 0
  /\ length (TRVI income physical) = length income.
Proof.
  intro Hlen. unfold TRVI. split.
  - rewrite combine_TRVI_sum by (rewrite !zscore_length; exact Hlen).
    rewrite !zscore_sum. lra.
  - rewrite combine_TRVI_length by (rewrite !zscore_length; exact Hlen).
    apply zscore_length.
Qed.

Lemma nth_all_equal (c : R) (col : list R) (i : nat) :
  Forall (eq c) col -> (i < length col)%nat -> nth i col 0 = c.
Proof.
  intros H Hi. rewrite Forall_forall in H. symmetry. apply H, nth_In, Hi.
Qed.

Lemma mean_all_equal (c : R) (col : list R) :
  Forall (eq c) col -> col <> [] -> mean col = c.
Proof.
  intros H Hne. unfold mean. rewrite (sum_all_equal c col H).
  field. apply not_0_INR. destruct col; [congruence|discriminate].
Qed.

(** X17: when every tract has the same income, the standardised income
    is 0 in every row (the scaler divides by 1 instead of by a zero
    deviation) and TRVI is the negated standardised physical index. *)
Theorem TRVI_constant_income (c : R) (income physical : list R) (i : nat) :
  Forall (eq c) income ->
  length income = length physical ->
  (i < length income)%nat ->
  nth i (zscore income) 0 = 0
  /\ nth i (TRVI income physical) 0 = - nth i (zscore physical) 0.
Proof.
  intros Hc Hlen Hi.
  assert (nth i (zscore income) 0 = 0) as Hz.
  { rewrite zscore_nth by exact Hi.
    rewrite (nth_all_equal c income i Hc Hi), (mean_all_equal c income Hc).
    - unfold Rdiv. rewrite Rminus_diag. apply Rmult_0_l.
    - intros ->. cbn in Hi. lia. }
  split; [exact Hz|]. unfold TRVI.
  rewrite combine_TRVI_nth by (rewrite ?zscore_length; lia).
  rewrite Hz. lra.
Qed.

Lemma TRVI_constant_income_witness :
  nth 1 (zscore [50000; 50000]) 0 = 0
  /\ nth 1 (TRVI [50000; 50000] [1 / 4; 3 / 4]) 0
     = - nth 1 (zscore [1 / 4; 3 / 4]) 0.
Proof.
  apply (TRVI_constant_income 50000 [50000; 50000] [1 / 4; 3 / 4] 1).
  - repeat constructor.
  - reflexivity.
  - cbn. lia.
Defined.



Lemma df_clean_length_le (df : list Row) : (length (df_clean df) <= length df)%nat.
Proof.
  induction df as [|r df IH]; [apply Nat.le_refl|].
  cbn [df_clean]. destruct (complete_row r); cbn [length]; lia.
Qed.

Lemma UTRI_physical_few_rows (rows : list Complete) :
  (length rows <= 1)%nat -> UTRI_physical rows = None.
Proof.
  intro H. unfold UTRI_physical, weights_ewm.
  destruct rows as [|c [|c' rest]]; [reflexivity| |cbn in H; lia].
  cbn [length]. change (INR 1) with 1. rewrite ln_1.
  unfold div at 1. destruct (Req_dec_T 0 0); [reflexivity|congruence].
Qed.

Lemma combine_fst {A B : Type} (a : list A) :
  forall b : list B, length a = length b -> map fst (combine a b) = a.
Proof.
  induction a as [|x a IH]; intros [|y b] Hlen; try discriminate.
  - reflexivity.
  - cbn. f_equal. apply IH. cbn in Hlen. lia.
Qed.

(** The table of line 105 has the complete rows, in their order, each
    with a number as TRVI when there are two or more of them and with no
    number otherwise. *)
Lemma df_final_columns (df : list Row) :
  map fst (df_final df) = df_clean df
  /\ ((2 <= length (df_clean df))%nat ->
      Forall (fun cv => exists v, snd cv = Some v) (df_final df))
  /\ ((length (df_clean df) <= 1)%nat ->
      Forall (fun cv => snd cv = None) (df_final df)).
Proof.
  unfold df_final. set (rows := df_clean df).
  destruct (Nat.le_gt_cases 2 (length rows)) as [Hm|Hm].
  - destruct (UTRI_physical_defined rows Hm) as (phys & -> & Hlen).
    assert (length rows
            = length (map Some (TRVI (map MHI rows) phys))) as Hl.
    { assert (length (map MHI rows) = length phys) as Hmp
        by (rewrite length_map; now symmetry).
      destruct (TRVI_sum_and_length (map MHI rows) phys Hmp) as [_ Ht].
      now rewrite length_map, Ht, length_map. }
    split; [now apply combine_fst|]. split; [|lia]. intros _.
    apply Forall_forall. intros [c v] Hin. apply in_combine_r in Hin.
    apply in_map_iff in Hin. destruct Hin as (x & <- & _). now exists x.
  - rewrite UTRI_physical_few_rows by lia. rewrite map_map. cbn [fst].
    split; [apply map_id|]. split; [lia|]. intros _.
    apply Forall_map, Forall_forall. reflexivity.
Qed.

(** X19: with no complete row in the file the script raises before
    [df_final] exists.  Otherwise [df_final] has the complete rows, in
    their order; with two or more complete rows every one of them gets a
    number as TRVI; with a single complete row its TRVI is not a
    number. *)
Theorem df_final_TRVI_values (df : list Row) :
  (df_clean df = [] -> run_df_final df = Network.Raises)
  /\ (df_clean df <> [] ->
      exists final,
        run_df_final df = Network.Returns final
        /\ map fst final = df_clean df
        /\ ((2 <= length (df_clean df))%nat ->
            Forall (fun cv => exists v, snd cv = Some v) final)
        /\ (length (df_clean df) = 1%nat ->
            Forall (fun cv => snd cv = None) final)).
Proof.
  unfold run_df_final. split.
  - intros ->. reflexivity.
  - intro Hne. exists (df_final df).
    destruct (df_final_columns df) as (Hfst & Hnum & Hnan).
    split; [destruct (df_clean df); [congruence|reflexivity]|].
    split; [exact Hfst|]. split; [exact Hnum|].
    intro H1. apply Hnan. lia.
Qed.

End TRVIMoreFacts.

(** ** Spatial weights and Moran's I: more *)

Section MoranMoreFacts.
Import Index.
Local Open Scope R_scope.

Lemma sum_indicator (p : nat -> bool) (c : R) (l : list nat) :
  sum (map (fun j => if p j then c else 0) l) = INR (length (filter p l)) * c.
Proof.
  induction l as [|j l IH].
  - cbn. lra.
  - cbn [map sum filter]. rewrite IH. destruct (p j).
    + cbn [length]. rewrite S_INR. lra.
    + lra.
Qed.

(** X20: after row standardisation the weights of a region with at least
    one neighbour add up to 1, and a region without neighbours has only
    zero weights. *)
Theorem row_standardized_row_sum (n : nat) (queen : nat -> nat -> bool) (i : nat) :
  (existsb (queen i) (seq 0 n) = true ->
   sum_over n (row_standardized n queen i) = 1)
  /\ (existsb (queen i) (seq 0 n) = false ->
      forall j, (j < n)%nat -> row_standardized n queen i j = 0).
Proof.
  split.
  - intro H. unfold sum_over, row_standardized.
    rewrite (sum_indicator (queen i)
               (1 / INR (length (filter (queen i) (seq 0 n)))) (seq 0 n)).
    apply existsb_exists in H. destruct H as (j & Hj & Hq).
    assert (In j (filter (queen i) (seq 0 n))) as Hin
      by (apply filter_In; auto).
    field. apply not_0_INR. destruct (filter (queen i) (seq 0 n));
      [destruct Hin|discriminate].
  - intros H j Hj. unfold row_standardized.
    destruct (queen i j) eqn:Hq; [|reflexivity].
    assert (existsb (queen i) (seq 0 n) = true) as H'.
    { apply existsb_exists. exists j. split; [|exact Hq].
      apply in_seq. lia. }
    congruence.
Qed.

End MoranMoreFacts.

(** ** The TRVI script as a whole, up to the Moran's I loop *)

Section ScriptFacts.
Import Index.
Local Open Scope R_scope.

Lemma gdf_analysis_rows (gdf_tracts : list string) (df : list Row)
                        (ct : Complete * option R) :
  In ct (gdf_analysis gdf_tracts df) ->
  In ct (df_final df) /\ In (geoid (fst ct)) gdf_tracts.
Proof.
  unfold gdf_analysis. intro H. apply in_flat_map in H.
  destruct H as (g & Hg & H). apply filter_In in H. destruct H as [H E].
  apply String.eqb_eq in E. split; [exact H|]. now rewrite E.
Qed.

(** A non-empty merged table means that the file had a complete row, so
    the script got as far as the loop. *)
Lemma script_reaches_loop (gdf_tracts : list string) (df : list Row)
                          (queen : nat -> nat -> bool) :
  let t := table_of (gdf_analysis gdf_tracts df) in
  (1 <= length t)%nat ->
  script_moran_results gdf_tracts df queen
  = moran_loop t (row_standardized (length t) queen) indicators.
Proof.
  intros t Hlen. subst t. unfold script_moran_results, run_df_final.
  destruct (gdf_analysis gdf_tracts df) as [|[c v] rows] eqn:E;
    [cbn in Hlen; lia|].
  assert (In c (df_clean df)) as Hc.
  { apply (df_final_rows df c v).
    apply (gdf_analysis_rows gdf_tracts). rewrite E. now left. }
  destruct (df_clean df); [destruct Hc|]. reflexivity.
Qed.

Lemma TRVI_column_full (gdf_tracts : list string) (df : list Row) :
  (2 <= length (df_clean df))%nat ->
  existsb isnull (column (table_of (gdf_analysis gdf_tracts df)) I_TRVI)
  = false.
Proof.
  intro Hm. destruct (df_final_columns df) as (_ & Hnum & _).
  specialize (Hnum Hm). rewrite Forall_forall in Hnum.
  assert (forall ct, In ct (gdf_analysis gdf_tracts df) ->
                     exists v, snd ct = Some v) as Hall.
  { intros ct Hct. apply Hnum. now apply (gdf_analysis_rows gdf_tracts). }
  unfold column, table_of. rewrite map_map.
  induction (gdf_analysis gdf_tracts df) as [|ct rows IH]; [reflexivity|].
  cbn [map existsb]. destruct (Hall ct (or_introl eq_refl)) as (v & ->).
  cbn [isnull orb]. apply IH. intros ct' H. apply Hall. now right.
Qed.

(** C1, as amended.  The table that the loop and the weights matrix are
    built from holds complete cases only: each of its regions comes from a
    row of the file without an empty cell (and is one of the tracts of the
    shapefile), so none of the five input columns holds a null in it, and
    with two or more complete rows in the file the TRVI column holds none
    either.  On a table of two or more regions the loop runs to its end:
    a column with a null leaves no entry at all, and every other column
    leaves Moran's I of the values of all regions of the table under the
    row-standardised weights of the whole table.  On a table of a single
    region [Moran] raises and the script ends. *)
Theorem moran_results_null_guard (gdf_tracts : list string) (df : list Row)
                                 (queen : nat -> nat -> bool) :
  let rows := gdf_analysis gdf_tracts df in
  let t := table_of rows in
  let run := script_moran_results gdf_tracts df queen in
  (forall c v, In (c, v) rows ->
     In (geoid c) gdf_tracts
     /\ exists r, In r df /\ complete_row r = Some c /\ ~ has_null r)
  /\ (forall col, col <> I_TRVI -> existsb isnull (column t col) = false)
  /\ ((2 <= length (df_clean df))%nat ->
      forall col, existsb isnull (column t col) = false)
  /\ ((2 <= length t)%nat ->
      exists res,
        run = Network.Returns res
        /\ forall col,
             (existsb isnull (column t col) = true -> lookup col res = None)
             /\ (existsb isnull (column t col) = false ->
                 lookup col res
                 = Some (Moran_I (values (column t col))
                                 (row_standardized (length t) queen))
                 /\ length (values (column t col)) = length t))
  /\ (length t = 1%nat -> run = Network.Raises).
Proof.
  intros rows t run. split; [|split; [|split; [|split]]].
  - intros c v Hin. apply (gdf_analysis_rows gdf_tracts) in Hin.
    destruct Hin as [Hfin Hg]. split; [exact Hg|].
    apply df_final_rows, df_clean_origin in Hfin.
    destruct Hfin as (r & Hr & Ec). exists r. split; [exact Hr|].
    split; [exact Ec|]. intro Hnull.
    rewrite (has_null_complete_row r Hnull) in Ec. discriminate Ec.
  - intros col Hcol. now apply table_of_complete.
  - intros Hm col. destruct (Indicator_eq_dec col I_TRVI) as [->|Hcol].
    + now apply TRVI_column_full.
    + now apply table_of_complete.
  - intro Hlen. subst run.
    rewrite (script_reaches_loop gdf_tracts df queen) by (fold rows t; lia).
    fold rows t.
    destruct (moran_loop_runs t (row_standardized (length t) queen)
                ltac:(lia) indicators) as (res & Eres & Hres).
    exists res. split; [exact Eres|]. intro col.
    destruct (Hres col) as [Hskip Hrun]. split; [exact Hskip|].
    intro Hfull. split; [apply Hrun; [exact Hfull|apply indicators_all]|].
    now apply column_values_length.
  - intro Hlen. subst run.
    rewrite (script_reaches_loop gdf_tracts df queen) by (fold rows t; lia).
    fold rows t.
    apply (moran_loop_one_region t _ I_Median_Household_Income Hlen).
    + apply table_of_complete. discriminate.
    + apply indicators_all.
Qed.

(** The table of the example: the two complete rows. *)
Lemma three_rows_table :
  exists v1 v2,
    map fst (gdf_analysis Examples.three_tracts Examples.three_rows)
    = Examples.two_rows
    /\ map snd (gdf_analysis Examples.three_tracts Examples.three_rows)
       = [v1; v2].
Proof.
  destruct (df_final_columns Examples.three_rows) as (Hfst & _ & _).
  change (df_clean Examples.three_rows) with Examples.two_rows in Hfst.
  unfold gdf_analysis.
  destruct (df_final Examples.three_rows) as [|[c1 v1] [|[c2 v2] [|cv rest]]];
    try discriminate Hfst.
  cbn [map fst] in Hfst. injection Hfst as E1 E2. subst c1 c2.
  exists v1, v2. split; reflexivity.
Qed.

(** C1, as stated, fails.  Of three tracts the third has a global
    permeability but no clustering coefficient.  It is no region of the
    table: Moran's I of the global permeability is computed from the
    other two regions only, although the third has a value for that
    indicator. *)
Lemma moran_results_complete_cases_only :
  let df := Examples.three_rows in
  let tracts := Examples.three_tracts in
  let rows := gdf_analysis tracts df in
  let t := table_of rows in
  In Examples.gap_row df
  /\ In (GEOID Examples.gap_row) tracts
  /\ global_permeability Examples.gap_row = Some 1
  /\ ~ In (GEOID Examples.gap_row) (map (fun ct => geoid (fst ct)) rows)
  /\ length t = 2%nat
  /\ values (column t I_global_permeability) = [1; 2]
  /\ forall queen,
       exists res,
         script_moran_results tracts df queen = Network.Returns res
         /\ lookup I_global_permeability res
            = Some (Moran_I [1; 2] (row_standardized 2 queen)).
Proof.
  cbv zeta. destruct three_rows_table as (v1 & v2 & Efst & Esnd).
  remember (gdf_analysis Examples.three_tracts Examples.three_rows) as rows
    eqn:Erows.
  assert (exists c1 c2, Examples.two_rows = [c1; c2]
                        /\ rows = [(c1, v1); (c2, v2)]) as (c1 & c2 & E2 & E).
  { destruct rows as [|[c1 w1] [|[c2 w2] [|cv rest]]]; try discriminate Efst.
    exists c1, c2. cbn in Efst, Esnd. injection Esnd as -> ->.
    split; [now symmetry|reflexivity]. }
  unfold Examples.two_rows in E2. injection E2 as <- <-.
  split; [cbn; tauto|]. split; [cbn; tauto|]. split; [reflexivity|].
  split.
  { rewrite E. cbn. intros [H|[H|[]]]; discriminate H. }
  split; [now rewrite E|]. split; [now rewrite E|]. intro queen.
  rewrite (script_reaches_loop _ _ queen) by (rewrite <- Erows, E; cbn; lia).
  rewrite <- Erows.
  destruct (moran_loop_runs (table_of rows) (row_standardized 2 queen)
              ltac:(rewrite E; cbn; lia) indicators)
    as (res & Eres & Hres).
  exists res. split; [rewrite E in *; exact Eres|].
  replace [1; 2] with (values (column (table_of rows) I_global_permeability))
    by now rewrite E.
  apply (Hres I_global_permeability); [now rewrite E|apply indicators_all].
Qed.

End ScriptFacts.
